(** * ConfidentialFundraiser: a shallow embedding and its verified properties

    The contract [contracts/ConfidentialFundraiser.sol] runs one fundraising
    campaign.  Contributors attach a public value (wei) and an encrypted
    amount; the contract keeps a plaintext total, four encrypted accumulators
    and issues decryption grants on the encrypted values it writes.

    Layout of this development:
    - [FHEBackend]: the interface of the encrypted-arithmetic runtime the
      contract imports ([FHE.add], [FHE.div], [FHE.fromExternal],
      [FHE.allow]); the contract is verified against any backend that obeys
      the interface laws;
    - [Symbolic]: a reference backend whose handles are the symbolic record
      of the computation that produced them; it is used to run the contract
      on concrete inputs; [Bound] is the same with input handles that
      record the principal they were attested for;
    - the contract itself, written in a small state-and-revert monad so that
      each Solidity statement is one monadic step;
    - the transaction semantics ([dispatch], [transact], [run]) and the
      reachable states;
    - the theorems. *)

From Stdlib Require Import NArith Lia.
From stdpp Require Import base decidable option list gmap strings numbers.

Local Open Scope N_scope.

(** ** Basic EVM data *)

(** An [address] is a 160-bit value; [address(0)] is [zero_address]. *)
Definition address := N.
Definition zero_address : address := 0.

(** [type(uint256).max]: arithmetic on [uint256] is checked (Solidity 0.8),
    an overflow reverts the transaction with [Panic(0x11)]. *)
Definition uint256_max : N := 2 ^ 256 - 1.

(** Encrypted integers are 128 bits wide; [FHE.add] wraps modulo [2^128]. *)
Definition euint128_modulus : N := 2 ^ 128.

(** [uint64 public constant POINTS_DIVISOR = 1_000_000_000_000;] *)
Definition POINTS_DIVISOR : N := 1000000000000.

(** ** The encrypted-arithmetic runtime

    The contract imports the runtime as a library; it is a parameter of the
    verification.  Handles are opaque values ([bytes32] in the contract).
    The runtime derives the handle of a result from the operation and the
    handles of its operands, so every operation is a function of its
    operands.  [clear] is the plaintext a handle stands for: it is never
    computed by the contract and only serves to state what the encrypted
    ledger holds.  Arithmetic on [euint128] is unchecked: addition wraps
    modulo [2^128], and division by a public scalar truncates.

    The runtime also refuses an operation whose operand the calling
    contract is not allowed to use.  The contract allows itself on every
    value it stores ([FHE.allowThis]) and fresh results are allowed for the
    rest of the transaction, so the refusal never fires here and is left
    out of the interface. *)
Class FHEBackend := {
  euint128 : Type;
  externalEuint128 : Type;
  euint128_eq_dec :: EqDecision euint128;
  (** [bytes32(0)], the value of a storage slot never written *)
  uninitialized : euint128;
  (** [FHE.asEuint128(v)]: trivial encryption of a public constant *)
  asEuint128 : N → euint128;
  (** homomorphic addition of two initialized handles *)
  fheAdd : euint128 → euint128 → euint128;
  (** homomorphic division of an initialized handle by a public scalar *)
  fheDiv : euint128 → N → euint128;
  (** attestation check of an external input for [(user, contract)] *)
  verifyInput : externalEuint128 → list Byte.byte → address → address → option euint128;
  (** plaintext semantics *)
  clear : euint128 → N;
  clear_uninitialized : clear uninitialized = 0;
  clear_bound : ∀ h, clear h < euint128_modulus;
  clear_asEuint128 : ∀ v, v < euint128_modulus → clear (asEuint128 v) = v;
  clear_fheAdd : ∀ a b, clear (fheAdd a b) = (clear a + clear b) mod euint128_modulus;
  clear_fheDiv : ∀ a d, d ≠ 0 → clear (fheDiv a d) = clear a / d;
  asEuint128_initialized : ∀ v, asEuint128 v ≠ uninitialized;
  fheAdd_initialized : ∀ a b, fheAdd a b ≠ uninitialized;
}.

(** ** A reference backend

    Handles are the symbolic record of the computation that produced them,
    so equal computations give equal handles and different ones differ.  An
    external input carries the plaintext chosen by its author and the
    [(user, contract)] pair it was encrypted for; its proof validates only
    for that pair. *)
Module Symbolic.

Inductive handle :=
| Null
| Trivial (v : N)
| Input (id plain : N)
| Add (a b : handle)
| Div (a : handle) (d : N).

Record external := {
  ext_id : N;
  ext_plain : N;
  ext_user : address;
  ext_contract : address;
}.

#[export] Instance handle_eq_dec : EqDecision handle.
Proof. solve_decision. Defined.

Fixpoint plaintext (h : handle) : N :=
  match h with
  | Null => 0
  | Trivial v => v mod euint128_modulus
  | Input _ plain => plain mod euint128_modulus
  | Add a b => (plaintext a + plaintext b) mod euint128_modulus
  | Div a d => plaintext a / d
  end.

(** Some attestation bytes; any non-empty proof stands for a valid one. *)
Definition attestation : list Byte.byte := [Byte.x01].

Definition verify (e : external) (proof : list Byte.byte)
    (user contract : address) : option handle :=
  if negb (Nat.eqb (length proof) 0) && (user =? ext_user e)
     && (contract =? ext_contract e)
  then Some (Input (ext_id e) (ext_plain e))
  else None.

Lemma plaintext_bound h : plaintext h < euint128_modulus.
Proof.
  induction h as [| v | id plain | a IHa b IHb | a IHa d]; simpl;
    try (apply N.mod_lt; done); [done|].
  destruct (decide (d = 0)) as [->|Hd].
  - by rewrite N.div_0_r.
  - eapply N.le_lt_trans; [|exact IHa]. apply N.Div0.div_le_upper_bound.
    destruct d; [done|]. nia.
Qed.

Lemma plaintext_trivial v : v < euint128_modulus → plaintext (Trivial v) = v.
Proof. intros Hv. simpl. by apply N.mod_small. Qed.

#[export] Instance backend : FHEBackend := {|
  euint128 := handle;
  externalEuint128 := external;
  uninitialized := Null;
  asEuint128 := Trivial;
  fheAdd := Add;
  fheDiv := Div;
  verifyInput := verify;
  clear := plaintext;
  clear_uninitialized := eq_refl;
  clear_bound := plaintext_bound;
  clear_asEuint128 := plaintext_trivial;
  clear_fheAdd := λ a b, eq_refl;
  clear_fheDiv := λ a d _, eq_refl;
  asEuint128_initialized := λ v, ltac:(discriminate);
  fheAdd_initialized := λ a b, ltac:(discriminate);
|}.

End Symbolic.

(** ** A backend with principal-bound inputs

    As [Symbolic], except that the handle of an external input also records
    the [(user, contract)] pair the input was attested for: one input
    handle is never admitted for two different principals. *)
Module Bound.

Inductive handle :=
| Null
| Trivial (v : N)
| Input (id plain : N) (user contract : address)
| Add (a b : handle)
| Div (a : handle) (d : N).

#[export] Instance bound_handle_eq_dec : EqDecision handle.
Proof. solve_decision. Defined.

Fixpoint plaintext (h : handle) : N :=
  match h with
  | Null => 0
  | Trivial v => v mod euint128_modulus
  | Input _ plain _ _ => plain mod euint128_modulus
  | Add a b => (plaintext a + plaintext b) mod euint128_modulus
  | Div a d => plaintext a / d
  end.

Definition verify (e : Symbolic.external) (proof : list Byte.byte)
    (user contract : address) : option handle :=
  if negb (Nat.eqb (length proof) 0) && (user =? Symbolic.ext_user e)
     && (contract =? Symbolic.ext_contract e)
  then Some (Input (Symbolic.ext_id e) (Symbolic.ext_plain e) user contract)
  else None.

Lemma bound_plaintext_range h : plaintext h < euint128_modulus.
Proof.
  induction h as [| v | id plain user contract | a IHa b IHb | a IHa d]; simpl;
    try (apply N.mod_lt; done); [done|].
  destruct (decide (d = 0)) as [->|Hd].
  - by rewrite N.div_0_r.
  - eapply N.le_lt_trans; [|exact IHa]. apply N.Div0.div_le_upper_bound.
    destruct d; [done|]. nia.
Qed.

Lemma bound_plaintext_trivial v : v < euint128_modulus → plaintext (Trivial v) = v.
Proof. intros Hv. simpl. by apply N.mod_small. Qed.

#[export] Instance backend : FHEBackend := {|
  euint128 := handle;
  externalEuint128 := Symbolic.external;
  uninitialized := Null;
  asEuint128 := Trivial;
  fheAdd := Add;
  fheDiv := Div;
  verifyInput := verify;
  clear := plaintext;
  clear_uninitialized := eq_refl;
  clear_bound := bound_plaintext_range;
  clear_asEuint128 := bound_plaintext_trivial;
  clear_fheAdd := λ a b, eq_refl;
  clear_fheDiv := λ a d _, eq_refl;
  asEuint128_initialized := λ v, ltac:(discriminate);
  fheAdd_initialized := λ a b, ltac:(discriminate);
|}.

End Bound.

(** ** Contract data *)

Record Campaign := {
  name : string;
  targetAmount : N;
  endTimestamp : N;
  fundraiser : address;
  isActive : bool;
}.

(** The value of [_campaign] before any write. *)
Definition empty_campaign : Campaign :=
  {| name := ""; targetAmount := 0; endTimestamp := 0;
     fundraiser := zero_address; isActive := false |}.

Inductive Event :=
| CampaignCreated (nm : string) (target endTs : N) (who : address)
| ContributionReceived (contributor : address) (amount : N)
| CampaignEnded (who : address) (amount endedAt : N).

Inductive Error :=
| CampaignAlreadyCreated
| CampaignInactive
| CampaignAlreadyEnded
| InvalidCampaignConfig
| Unauthorized
| ZeroContribution
| WithdrawalFailed
| Panic (code : N)            (* compiler-inserted checks; 0x11 = overflow *)
| InputVerificationFailed     (* [FHE.fromExternal] rejected the proof *)
| NonPayable.                 (* value sent to a function not marked payable *)

(** What a transaction brings with it: [msg.sender], [msg.value],
    [block.timestamp], and whether a value transfer made during the
    transaction is accepted by its recipient (the result of the low-level
    [call] in [endCampaign], which the contract does not control). *)
Record Env := {
  msg_sender : address;
  msg_value : N;
  block_timestamp : N;
  call_succeeds : bool;
}.

Section Contract.
Context `{B : FHEBackend}.

(** [address(this)] *)
Variable this : address.

Global Instance euint128_inhabited : Inhabited euint128 := populate uninitialized.

(** Contract storage, followed by the parts of the world the contract acts
    on: its own balance, the runtime's persistent allow-list, the event log
    and the value transfers it has made.  The three logs only grow; the
    most recent entry is at the head. *)
Record State := {
  _campaign : Campaign;
  totalRaised : N;
  _encryptedTotalRaised : euint128;
  _encryptedTotalPoints : euint128;
  _encryptedContributions : gmap address euint128;
  _encryptedPoints : gmap address euint128;
  balance : N;
  acl : list (euint128 * address);
  events : list Event;
  sent : list (address * N);
}.

Definition initial_state : State :=
  {| _campaign := empty_campaign; totalRaised := 0;
     _encryptedTotalRaised := uninitialized;
     _encryptedTotalPoints := uninitialized;
     _encryptedContributions := ∅; _encryptedPoints := ∅;
     balance := 0; acl := []; events := []; sent := [] |}.

Definition set_campaign (c : Campaign) (s : State) : State :=
  {| _campaign := c; totalRaised := totalRaised s;
     _encryptedTotalRaised := _encryptedTotalRaised s;
     _encryptedTotalPoints := _encryptedTotalPoints s;
     _encryptedContributions := _encryptedContributions s;
     _encryptedPoints := _encryptedPoints s;
     balance := balance s; acl := acl s; events := events s; sent := sent s |}.

Definition set_totalRaised (v : N) (s : State) : State :=
  {| _campaign := _campaign s; totalRaised := v;
     _encryptedTotalRaised := _encryptedTotalRaised s;
     _encryptedTotalPoints := _encryptedTotalPoints s;
     _encryptedContributions := _encryptedContributions s;
     _encryptedPoints := _encryptedPoints s;
     balance := balance s; acl := acl s; events := events s; sent := sent s |}.

Definition set_encryptedTotalRaised (h : euint128) (s : State) : State :=
  {| _campaign := _campaign s; totalRaised := totalRaised s;
     _encryptedTotalRaised := h;
     _encryptedTotalPoints := _encryptedTotalPoints s;
     _encryptedContributions := _encryptedContributions s;
     _encryptedPoints := _encryptedPoints s;
     balance := balance s; acl := acl s; events := events s; sent := sent s |}.

Definition set_encryptedTotalPoints (h : euint128) (s : State) : State :=
  {| _campaign := _campaign s; totalRaised := totalRaised s;
     _encryptedTotalRaised := _encryptedTotalRaised s;
     _encryptedTotalPoints := h;
     _encryptedContributions := _encryptedContributions s;
     _encryptedPoints := _encryptedPoints s;
     balance := balance s; acl := acl s; events := events s; sent := sent s |}.

Definition set_encryptedContributions (m : gmap address euint128) (s : State) : State :=
  {| _campaign := _campaign s; totalRaised := totalRaised s;
     _encryptedTotalRaised := _encryptedTotalRaised s;
     _encryptedTotalPoints := _encryptedTotalPoints s;
     _encryptedContributions := m;
     _encryptedPoints := _encryptedPoints s;
     balance := balance s; acl := acl s; events := events s; sent := sent s |}.

Definition set_encryptedPoints (m : gmap address euint128) (s : State) : State :=
  {| _campaign := _campaign s; totalRaised := totalRaised s;
     _encryptedTotalRaised := _encryptedTotalRaised s;
     _encryptedTotalPoints := _encryptedTotalPoints s;
     _encryptedContributions := _encryptedContributions s;
     _encryptedPoints := m;
     balance := balance s; acl := acl s; events := events s; sent := sent s |}.

Definition set_balance (v : N) (s : State) : State :=
  {| _campaign := _campaign s; totalRaised := totalRaised s;
     _encryptedTotalRaised := _encryptedTotalRaised s;
     _encryptedTotalPoints := _encryptedTotalPoints s;
     _encryptedContributions := _encryptedContributions s;
     _encryptedPoints := _encryptedPoints s;
     balance := v; acl := acl s; events := events s; sent := sent s |}.

Definition set_acl (l : list (euint128 * address)) (s : State) : State :=
  {| _campaign := _campaign s; totalRaised := totalRaised s;
     _encryptedTotalRaised := _encryptedTotalRaised s;
     _encryptedTotalPoints := _encryptedTotalPoints s;
     _encryptedContributions := _encryptedContributions s;
     _encryptedPoints := _encryptedPoints s;
     balance := balance s; acl := l; events := events s; sent := sent s |}.

Definition set_events (l : list Event) (s : State) : State :=
  {| _campaign := _campaign s; totalRaised := totalRaised s;
     _encryptedTotalRaised := _encryptedTotalRaised s;
     _encryptedTotalPoints := _encryptedTotalPoints s;
     _encryptedContributions := _encryptedContributions s;
     _encryptedPoints := _encryptedPoints s;
     balance := balance s; acl := acl s; events := l; sent := sent s |}.

Definition set_sent (l : list (address * N)) (s : State) : State :=
  {| _campaign := _campaign s; totalRaised := totalRaised s;
     _encryptedTotalRaised := _encryptedTotalRaised s;
     _encryptedTotalPoints := _encryptedTotalPoints s;
     _encryptedContributions := _encryptedContributions s;
     _encryptedPoints := _encryptedPoints s;
     balance := balance s; acl := acl s; events := events s; sent := l |}.

(** ** The state-and-revert monad

    A computation either completes with a value and a state, or reverts
    with an error.  [Revert] keeps the state the computation had reached
    when it reverted: the transaction layer ([transact]) throws it away,
    and keeping it lets us say which reverts happen before any write. *)
Inductive Outcome (A : Type) :=
| Ok (a : A) (s : State)
| Revert (e : Error) (s : State).
Global Arguments Ok {A} a s.
Global Arguments Revert {A} e s.

Definition M (A : Type) := State → Outcome A.

Definition ret {A} (a : A) : M A := λ s, Ok a s.
Definition bind {A C} (m : M A) (k : A → M C) : M C :=
  λ s, match m s with
       | Ok a s' => k a s'
       | Revert e s' => Revert e s'
       end.
Definition revert {A} (e : Error) : M A := λ s, Revert e s.
Definition gets {A} (f : State → A) : M A := λ s, Ok (f s) s.
Definition modify (f : State → State) : M unit := λ s, Ok tt (f s).
(** [if (c) { body }] *)
Definition when (c : bool) (body : M unit) : M unit :=
  if c then body else ret tt.

Notation "x <- m ;; k" := (bind m (λ x, k))
  (at level 100, m at next level, right associativity).
Notation "m ;; k" := (bind m (λ _, k))
  (at level 100, right associativity).

Definition emit (e : Event) : M unit :=
  modify (λ s, set_events (e :: events s) s).

(** ** The library calls the contract makes *)

Definition isInitialized (h : euint128) : bool :=
  bool_decide (h ≠ uninitialized).

(** [FHE.add(a, b)]: an uninitialized operand is read as an encrypted 0. *)
Definition FHE_add (a b : euint128) : euint128 :=
  fheAdd (if isInitialized a then a else asEuint128 0)
         (if isInitialized b then b else asEuint128 0).

(** [FHE.div(a, b)] with a plaintext divisor. *)
Definition FHE_div (a : euint128) (b : N) : euint128 :=
  fheDiv (if isInitialized a then a else asEuint128 0) b.

(** [FHE.fromExternal(h, proof)]: reverts unless the proof validates for
    the caller and this contract. *)
Definition FHE_fromExternal (env : Env) (h : externalEuint128) (proof : list Byte.byte)
  : M euint128 :=
  match verifyInput h proof (msg_sender env) this with
  | Some amount => ret amount
  | None => revert InputVerificationFailed
  end.

(** [FHE.allow(h, who)]: adds a persistent entry to the allow-list. *)
Definition FHE_allow (h : euint128) (who : address) : M unit :=
  modify (λ s, set_acl ((h, who) :: acl s) s).

(** [FHE.allowThis(h)] *)
Definition FHE_allowThis (h : euint128) : M unit := FHE_allow h this.

(** [x += v] on a [uint256] storage variable. *)
Definition checked_add (x v : N) : M N :=
  if decide (x + v ≤ uint256_max) then ret (x + v) else revert (Panic 17).

(** [to.call{value: amount}("")]: when the recipient accepts, the amount
    leaves the contract; otherwise nothing moves and [false] is returned.
    The recipient's code runs during the call and may call back; in
    [endCampaign] the flag is already cleared by then, so [contribute] and
    [endCampaign] revert with [CampaignInactive] and [createCampaign] with
    [CampaignAlreadyCreated]: a call back cannot change the state, and the
    call is modelled by its result alone. *)
Definition call_value (env : Env) (to : address) (amount : N) : M bool :=
  if call_succeeds env
  then modify (λ s, set_sent ((to, amount) :: sent s)
                      (set_balance (balance s - amount) s)) ;; ret true
  else ret false.

(** ** The contract functions *)

Definition createCampaign (env : Env) (nm : string) (target endTs : N) : M unit :=
  c <- gets _campaign ;;
  when (bool_decide (fundraiser c ≠ zero_address))
    (revert CampaignAlreadyCreated) ;;
  when (bool_decide (String.length nm = 0%nat) || (target =? 0)
        || (endTs <=? block_timestamp env))
    (revert InvalidCampaignConfig) ;;
  modify (set_campaign
            {| name := nm; targetAmount := target; endTimestamp := endTs;
               fundraiser := msg_sender env; isActive := true |}) ;;
  emit (CampaignCreated nm target endTs (msg_sender env)).

Definition contribute (env : Env) (encryptedAmount : externalEuint128)
    (inputProof : list Byte.byte) : M unit :=
  c <- gets _campaign ;;
  when (negb (isActive c)) (revert CampaignInactive) ;;
  when (endTimestamp c <=? block_timestamp env) (revert CampaignAlreadyEnded) ;;
  when (msg_value env =? 0) (revert ZeroContribution) ;;

  amount <- FHE_fromExternal env encryptedAmount inputProof ;;

  contributions <- gets _encryptedContributions ;;
  let updatedContribution := FHE_add (contributions !!! msg_sender env) amount in
  modify (set_encryptedContributions
            (<[msg_sender env := updatedContribution]> contributions)) ;;

  let contributionPoints := FHE_div amount POINTS_DIVISOR in
  points <- gets _encryptedPoints ;;
  let updatedPoints := FHE_add (points !!! msg_sender env) contributionPoints in
  modify (set_encryptedPoints (<[msg_sender env := updatedPoints]> points)) ;;

  raised <- gets _encryptedTotalRaised ;;
  modify (set_encryptedTotalRaised (FHE_add raised amount)) ;;
  totalPoints <- gets _encryptedTotalPoints ;;
  modify (set_encryptedTotalPoints (FHE_add totalPoints contributionPoints)) ;;

  total <- gets totalRaised ;;
  total' <- checked_add total (msg_value env) ;;
  modify (set_totalRaised total') ;;

  FHE_allowThis updatedContribution ;;
  FHE_allow updatedContribution (msg_sender env) ;;
  FHE_allowThis updatedPoints ;;
  FHE_allow updatedPoints (msg_sender env) ;;

  raised' <- gets _encryptedTotalRaised ;;
  FHE_allowThis raised' ;;
  totalPoints' <- gets _encryptedTotalPoints ;;
  FHE_allowThis totalPoints' ;;
  c' <- gets _campaign ;;
  when (bool_decide (fundraiser c' ≠ zero_address))
    (FHE_allow raised' (fundraiser c') ;;
     FHE_allow totalPoints' (fundraiser c')) ;;

  emit (ContributionReceived (msg_sender env) (msg_value env)).

Definition endCampaign (env : Env) : M unit :=
  c <- gets _campaign ;;
  when (bool_decide (msg_sender env ≠ fundraiser c)) (revert Unauthorized) ;;
  when (negb (isActive c)) (revert CampaignInactive) ;;

  modify (λ s, set_campaign
                 {| name := name (_campaign s);
                    targetAmount := targetAmount (_campaign s);
                    endTimestamp := endTimestamp (_campaign s);
                    fundraiser := fundraiser (_campaign s);
                    isActive := false |} s) ;;
  bal <- gets balance ;;
  c1 <- gets _campaign ;;
  success <- call_value env (fundraiser c1) bal ;;
  when (negb success) (revert WithdrawalFailed) ;;

  c2 <- gets _campaign ;;
  emit (CampaignEnded (fundraiser c2) bal (block_timestamp env)).

(** The read accessors. *)
Definition getCampaignInfo (s : State)
  : string * N * N * address * bool * N :=
  let campaign := _campaign s in
  (name campaign, targetAmount campaign, endTimestamp campaign,
   fundraiser campaign, isActive campaign, totalRaised s).

Definition getEncryptedContribution (s : State) (user : address) : euint128 :=
  _encryptedContributions s !!! user.

Definition getEncryptedPoints (s : State) (user : address) : euint128 :=
  _encryptedPoints s !!! user.

Definition getEncryptedTotals (s : State) : euint128 * euint128 :=
  (_encryptedTotalRaised s, _encryptedTotalPoints s).

(** ** Transactions

    A transaction is a call to one of the three external functions together
    with its environment.  [contribute] is [payable]: the attached value is
    credited to the contract before the body runs.  The other two are not,
    and the compiler-generated prologue reverts when value is attached. *)
Inductive Call :=
| CreateCampaign (nm : string) (target endTs : N)
| Contribute (encryptedAmount : externalEuint128) (inputProof : list Byte.byte)
| EndCampaign.

Definition Tx : Type := Env * Call.

Definition non_payable (env : Env) : M unit :=
  when (negb (msg_value env =? 0)) (revert NonPayable).

Definition receive_value (env : Env) : M unit :=
  modify (λ s, set_balance (balance s + msg_value env) s).

Definition dispatch (tx : Tx) : M unit :=
  let env := tx.1 in
  match tx.2 with
  | CreateCampaign nm target endTs =>
      non_payable env ;; createCampaign env nm target endTs
  | Contribute encryptedAmount inputProof =>
      receive_value env ;; contribute env encryptedAmount inputProof
  | EndCampaign =>
      non_payable env ;; endCampaign env
  end.

(** A transaction commits the state it reaches, or, when it reverts,
    leaves the state it started from. *)
Definition transact (tx : Tx) (s : State) : State :=
  match dispatch tx s with
  | Ok _ s' => s'
  | Revert _ _ => s
  end.

Definition accepted (tx : Tx) (s : State) : bool :=
  match dispatch tx s with
  | Ok _ _ => true
  | Revert _ _ => false
  end.

Fixpoint run (txs : list Tx) (s : State) : State :=
  match txs with
  | [] => s
  | tx :: rest => run rest (transact tx s)
  end.

(** The contributor, public value and ingested amount of an accepted
    [contribute] transaction. *)
Definition contribution_of (tx : Tx) (s : State)
  : option (address * N * euint128) :=
  match tx.2 with
  | Contribute encryptedAmount inputProof =>
      if accepted tx s
      then (λ amount, (msg_sender tx.1, msg_value tx.1, amount))
             <$> verifyInput encryptedAmount inputProof (msg_sender tx.1) this
      else None
  | _ => None
  end.

(** The accepted contributions of a sequence of transactions, in order. *)
Fixpoint ledger (txs : list Tx) (s : State) : list (address * N * euint128) :=
  match txs with
  | [] => []
  | tx :: rest =>
      match contribution_of tx s with
      | Some c => c :: ledger rest (transact tx s)
      | None => ledger rest (transact tx s)
      end
  end.

Definition sum_values (l : list (address * N * euint128)) : N :=
  foldr (λ c acc, c.1.2 + acc) 0 l.

Definition sum_amounts (l : list (address * N * euint128)) : N :=
  foldr (λ c acc, clear c.2 + acc) 0 l.

(** The states the contract can be in: those reached from deployment by
    transactions and by value credited to the contract's address without a
    call.  The sender of a transaction is never [address(0)].  The chain
    can raise [address(this).balance] without running any code of the
    contract (the address was funded before deployment, a [selfdestruct]
    names it as beneficiary, it receives a block reward); such a credit
    changes the balance and nothing else. *)
Inductive reachable : State → Prop :=
| reachable_initial : reachable initial_state
| reachable_transact tx s :
    reachable s → msg_sender tx.1 ≠ zero_address → reachable (transact tx s)
| reachable_credit v s :
    reachable s → reachable (set_balance (balance s + v) s).

(** [evolves s0 s]: [s] is [s0] or comes after it, by transactions and
    credits. *)
Inductive evolves : State → State → Prop :=
| evolves_refl s : evolves s s
| evolves_transact s0 tx s :
    evolves s0 s → evolves s0 (transact tx s)
| evolves_credit s0 v s :
    evolves s0 s → evolves s0 (set_balance (balance s + v) s).

(** Plaintext sum of the entries of an encrypted mapping. *)
Definition sum_entries (m : gmap address euint128) : N :=
  map_fold (λ _ h acc, clear h + acc) 0 m.

(** The state an accepted [contribute] commits, written out. *)
Definition contribute_post (env : Env) (amount : euint128) (s : State) : State :=
  let who := msg_sender env in
  let updatedContribution := FHE_add (_encryptedContributions s !!! who) amount in
  let contributionPoints := FHE_div amount POINTS_DIVISOR in
  let updatedPoints := FHE_add (_encryptedPoints s !!! who) contributionPoints in
  let raised := FHE_add (_encryptedTotalRaised s) amount in
  let totalPoints := FHE_add (_encryptedTotalPoints s) contributionPoints in
  {| _campaign := _campaign s;
     totalRaised := totalRaised s + msg_value env;
     _encryptedTotalRaised := raised;
     _encryptedTotalPoints := totalPoints;
     _encryptedContributions := <[who := updatedContribution]> (_encryptedContributions s);
     _encryptedPoints := <[who := updatedPoints]> (_encryptedPoints s);
     balance := balance s;
     acl := (if bool_decide (fundraiser (_campaign s) ≠ zero_address)
             then [(totalPoints, fundraiser (_campaign s));
                   (raised, fundraiser (_campaign s))]
             else []) ++
            [(totalPoints, this); (raised, this);
             (updatedPoints, who); (updatedPoints, this);
             (updatedContribution, who); (updatedContribution, this)] ++
            acl s;
     events := ContributionReceived who (msg_value env) :: events s;
     sent := sent s |}.

(** The state a successful [createCampaign] commits. *)
Definition createCampaign_post (env : Env) (nm : string) (target endTs : N)
    (s : State) : State :=
  set_events (CampaignCreated nm target endTs (msg_sender env) :: events s)
    (set_campaign {| name := nm; targetAmount := target; endTimestamp := endTs;
                     fundraiser := msg_sender env; isActive := true |} s).

(** The state a successful [endCampaign] commits. *)
Definition endCampaign_post (env : Env) (s : State) : State :=
  {| _campaign := {| name := name (_campaign s);
                     targetAmount := targetAmount (_campaign s);
                     endTimestamp := endTimestamp (_campaign s);
                     fundraiser := fundraiser (_campaign s);
                     isActive := false |};
     totalRaised := totalRaised s;
     _encryptedTotalRaised := _encryptedTotalRaised s;
     _encryptedTotalPoints := _encryptedTotalPoints s;
     _encryptedContributions := _encryptedContributions s;
     _encryptedPoints := _encryptedPoints s;
     balance := balance s - balance s;
     acl := acl s;
     events := CampaignEnded (fundraiser (_campaign s)) (balance s)
                 (block_timestamp env) :: events s;
     sent := (fundraiser (_campaign s), balance s) :: sent s |}.

(** [committed tx s s']: the transaction [tx] is accepted in state [s] and
    commits [s'].  One case per external function, with the conditions the
    function checks. *)
Inductive committed (tx : Tx) (s : State) : State → Prop :=
| committed_create nm target endTs :
    tx.2 = CreateCampaign nm target endTs →
    msg_value tx.1 = 0 →
    fundraiser (_campaign s) = zero_address →
    String.length nm ≠ 0%nat → target ≠ 0 → block_timestamp tx.1 < endTs →
    committed tx s (createCampaign_post tx.1 nm target endTs s)
| committed_contribute ea pf amount :
    tx.2 = Contribute ea pf →
    isActive (_campaign s) = true →
    block_timestamp tx.1 < endTimestamp (_campaign s) →
    msg_value tx.1 ≠ 0 →
    verifyInput ea pf (msg_sender tx.1) this = Some amount →
    totalRaised s + msg_value tx.1 ≤ uint256_max →
    committed tx s
      (contribute_post tx.1 amount
         (set_balance (balance s + msg_value tx.1) s))
| committed_end :
    tx.2 = EndCampaign →
    msg_value tx.1 = 0 →
    msg_sender tx.1 = fundraiser (_campaign s) →
    isActive (_campaign s) = true →
    call_succeeds tx.1 = true →
    committed tx s (endCampaign_post tx.1 s).

(** [entitled s0 h p]: in state [s0] the handle [h] is one of [p]'s own
    ledger entries, or [p] is the fundraiser and [h] is one of the two
    grand totals. *)
Definition entitled (s0 : State) (h : euint128) (p : address) : Prop :=
  _encryptedContributions s0 !! p = Some h ∨
  _encryptedPoints s0 !! p = Some h ∨
  (p = fundraiser (_campaign s0) ∧
   (h = _encryptedTotalRaised s0 ∨ h = _encryptedTotalPoints s0)).

(** The storage and the logs are as at deployment; the balance is left
    out, for it can be credited before any call. *)
Definition pristine (s : State) : Prop :=
  _campaign s = empty_campaign ∧ totalRaised s = 0 ∧
  _encryptedTotalRaised s = uninitialized ∧
  _encryptedTotalPoints s = uninitialized ∧
  _encryptedContributions s = ∅ ∧ _encryptedPoints s = ∅ ∧
  acl s = [] ∧ events s = [] ∧ sent s = [].

(** What separating the contributors asks of the runtime's handles.
    Handles are derived by hashing, so different computations give
    different handles: a sum determines its operands, a quotient its
    dividend, no computed handle is the zero handle.  The handle of a
    verified input is initialized, is not the result of a computation, and
    is admitted for one principal only. *)
Record CollisionFree : Prop := {
  fheAdd_inj : ∀ a b a' b', fheAdd a b = fheAdd a' b' → a = a' ∧ b = b';
  fheDiv_inj : ∀ a a' d, fheDiv a d = fheDiv a' d → a = a';
  fheDiv_initialized : ∀ a d, fheDiv a d ≠ uninitialized;
  input_initialized : ∀ e pf user contract h,
    verifyInput e pf user contract = Some h → h ≠ uninitialized;
  input_not_computed : ∀ e pf user contract h a d,
    verifyInput e pf user contract = Some h → h ≠ fheDiv a d;
  input_bound : ∀ e pf user contract e' pf' user' contract' h,
    verifyInput e pf user contract = Some h →
    verifyInput e' pf' user' contract' = Some h → user = user';
}.

(** [a] is an amount the contract ingested from [p]. *)
Definition ingested_from (p : address) (a : euint128) : Prop :=
  ∃ e pf, verifyInput e pf p this = Some a.

(** The shape of the values [contribute] stores in [p]'s two entries: a
    sum whose second operand is an amount ingested from [p], resp. the
    points of such an amount. *)
Definition contribution_value_of (p : address) (h : euint128) : Prop :=
  ∃ x a, ingested_from p a ∧ h = fheAdd x a.

Definition points_value_of (p : address) (h : euint128) : Prop :=
  ∃ x a, ingested_from p a ∧ h = fheAdd x (fheDiv a POINTS_DIVISOR).

(** [h] is or was a grand total, in [s] or in a state before it. *)
Definition was_total (s : State) (h : euint128) : Prop :=
  ∃ s0, reachable s0 ∧ evolves s0 s ∧
        (h = _encryptedTotalRaised s0 ∨ h = _encryptedTotalPoints s0).

End Contract.

(** ** Sample transactions on the reference backend *)
Module Sample.
Import Symbolic.

(** The deployed contract and three accounts. *)
Definition this : address := 100.
Definition deployer : address := 1.
Definition alice : address := 2.
Definition bob : address := 3.

Definition env (who : address) (value now : N) : Env :=
  {| msg_sender := who; msg_value := value; block_timestamp := now;
     call_succeeds := true |}.

(** An input encrypting [plain], made by [who] for this contract. *)
Definition input (id plain : N) (who : address) : external :=
  {| ext_id := id; ext_plain := plain; ext_user := who; ext_contract := this |}.

Definition create : Tx :=
  (env deployer 0 1000, CreateCampaign "Rocket Launch" 5000000000000000000 4600).

Definition give (id : N) (who : address) (value plain now : N) : Tx :=
  (env who value now, Contribute (input id plain who) attestation).

Definition finish : Tx := (env deployer 0 2000, EndCampaign).

Definition one_ether : N := 1000000000000000000.

(** A campaign created by [deployer], and the same after [alice] has
    contributed one ether, encrypting the amount she attached. *)
Definition created : State := run this [create] initial_state.
Definition funded : State :=
  run this [create; give 1 alice one_ether one_ether 1500] initial_state.

(** [alice] attaches 1 wei and encrypts 2. *)
Definition mismatched : State :=
  run this [create; give 1 alice 1 2 1500] initial_state.

(** [alice] attaches 1 wei and encrypts [2^128 - 1]. *)
Definition saturated : State :=
  run this [create; give 1 alice 1 (euint128_modulus - 1) 1500] initial_state.

End Sample.

(** ** Reading the logs and the ledger

    Functions over the event log and over the list of accepted
    contributions, used to state what the contract has recorded. *)
Section Observations.
Context `{B : FHEBackend}.

(** The sum of the amounts of the [ContributionReceived] events. *)
Definition logged_contributions (l : list Event) : N :=
  foldr (λ e acc, match e with
                  | ContributionReceived _ amount => amount + acc
                  | _ => acc
                  end) 0 l.

Definition count_created (l : list Event) : nat :=
  foldr (λ e acc, match e with
                  | CampaignCreated _ _ _ _ => S acc
                  | _ => acc
                  end) 0%nat l.

Definition count_ended (l : list Event) : nat :=
  foldr (λ e acc, match e with
                  | CampaignEnded _ _ _ => S acc
                  | _ => acc
                  end) 0%nat l.

(** The sum of the amounts of the transfers the contract has made. *)
Definition sum_sent (l : list (address * N)) : N :=
  foldr (λ t acc, t.2 + acc) 0 l.

(** The plaintexts [who] contributed, summed, and the points they earned. *)
Definition amounts_of (who : address) (l : list (address * N * euint128)) : N :=
  foldr (λ c acc, if decide (c.1.1 = who) then clear c.2 + acc else acc) 0 l.

Definition points_of (who : address) (l : list (address * N * euint128)) : N :=
  foldr (λ c acc, if decide (c.1.1 = who)
                  then clear c.2 / POINTS_DIVISOR + acc else acc) 0 l.

Definition sum_points (l : list (address * N * euint128)) : N :=
  foldr (λ c acc, clear c.2 / POINTS_DIVISOR + acc) 0 l.


End Observations.

(** ** The client

    The parts of the web client ([FundraiserApp]) that decide what the
    user may do and what is shown, as functions of what the client has
    read from the contract.  [campaignInfo] is [null] until the first read
    has completed. *)
Module Frontend.

Record CampaignInfo := {
  name : string;
  targetAmount : N;
  endTimestamp : N;
  fundraiser : address;
  isActive : bool;
  raised : N;
}.

(** [loadCampaign]: the record built from the result of [getCampaignInfo]. *)
Definition loadCampaign `{B : FHEBackend} (s : State) : CampaignInfo :=
  let '(nm, target, endTs, who, active, total) := getCampaignInfo s in
  {| name := nm; targetAmount := target; endTimestamp := endTs;
     fundraiser := who; isActive := active; raised := total |}.

(** [Number(n)] for a non-negative [bigint]: the nearest double, ties to
    the even significand.  Below [2^53] every integer is a double; from
    there on a double has 53 significant bits, so in
    [[2^(52+k), 2^(53+k))] doubles are the multiples of [2^k]. *)
Definition Number (n : N) : N :=
  if n <? 2 ^ 53 then n
  else
    let k := N.log2 n - 52 in
    let q := n / 2 ^ k in
    let r := n mod 2 ^ k in
    let half := 2 ^ (k - 1) in
    if r <? half then q * 2 ^ k
    else if half <? r then (q + 1) * 2 ^ k
    else if N.even q then q * 2 ^ k else (q + 1) * 2 ^ k.

Definition hasCampaign (campaignInfo : option CampaignInfo) : bool :=
  match campaignInfo with
  | Some info => negb (fundraiser info =? zero_address)
  | None => false
  end.

(** Addresses are compared as hexadecimal strings in lower case, that is,
    as the numbers they denote. *)
Definition isFundraiser (campaignInfo : option CampaignInfo)
    (address : option address) : bool :=
  match campaignInfo, address with
  | Some info, Some a => fundraiser info =? a
  | _, _ => false
  end.

Record Status := { label : string; tone : string }.

(** The body of the [useMemo] that computes the status.  The
    dependencies of the memo are [campaignInfo] and [hasCampaign]: the
    body runs when a load has stored a new campaign record and reads the
    clock at that moment; [computedAt] is [Math.floor(Date.now() / 1000)]
    then.  Nothing runs it again as time passes: there is no timer and the
    clock is not a dependency. *)
Definition campaignStatus (campaignInfo : option CampaignInfo)
    (computedAt : N) : Status :=
  match campaignInfo with
  | None => {| label := "Not created"; tone := "neutral" |}
  | Some info =>
      if negb (hasCampaign campaignInfo)
      then {| label := "Not created"; tone := "neutral" |}
      else
        let ended := Number (endTimestamp info) <=? computedAt in
        if negb (isActive info) || ended
        then {| label := "Closed"; tone := "closed" |}
        else {| label := "Open"; tone := "open" |}
  end.

(** What the page holds between two loads: the campaign record of the last
    load and the status memoized with it. *)
Record Page := { page_info : option CampaignInfo; page_status : Status }.

(** A load completed at clock [loadedAt] stores a new record, and the memo
    computes the status from it. *)
Definition afterLoad (campaignInfo : option CampaignInfo) (loadedAt : N) : Page :=
  {| page_info := campaignInfo;
     page_status := campaignStatus campaignInfo loadedAt |}.

(** The status rendered at clock [now] by a page that has not loaded
    again: the memoized one, whatever [now] is. *)
Definition renderedStatus (page : Page) (now : N) : Status := page_status page.

(** The "End campaign & withdraw" button is rendered under this
    condition, on the memoized status; it is the only place where the
    client calls [endCampaign]. *)
Definition endButtonShown (campaignInfo : option CampaignInfo)
    (address : option address) (campaignStatus : Status) : bool :=
  isFundraiser campaignInfo address && hasCampaign campaignInfo
  && String.eqb (label campaignStatus) "Open".

(** The "Contribute" button is disabled under this condition. *)
Definition contributeDisabled (isSubmitting : bool)
    (campaignStatus : Status) : bool :=
  isSubmitting || String.eqb (label campaignStatus) "Closed".

(** User decryption of a handle read from [contract]: the gateway answers
    when both the user and the contract are allowed on the handle, and
    fails otherwise. *)
Definition userDecrypt `{B : FHEBackend} (acl : list (euint128 * address))
    (contract user : address) (h : euint128) : option N :=
  if decide ((h, user) ∈ acl ∧ (h, contract) ∈ acl) then Some (clear h) else None.

(** [handleDecryptStats]: a zero contribution handle is shown as zero
    contribution and zero points without asking the gateway; otherwise
    both handles are decrypted.  [None] stands for the error message. *)
Definition handleDecryptStats `{B : FHEBackend} (acl : list (euint128 * address))
    (contract user : address) (encryptedStats : option (euint128 * euint128))
  : option (N * N) :=
  match encryptedStats with
  | None => Some (0, 0)
  | Some (contribution, points) =>
      if decide (contribution = uninitialized) then Some (0, 0)
      else
        match userDecrypt acl contract user contribution,
              userDecrypt acl contract user points with
        | Some c, Some p => Some (c, p)
        | _, _ => None
        end
  end.

(** [handleDecryptTotals]: the same for the two grand totals. *)
Definition handleDecryptTotals `{B : FHEBackend} (acl : list (euint128 * address))
    (contract user : address) (encryptedTotals : option (euint128 * euint128))
  : option (N * N) :=
  match encryptedTotals with
  | None => Some (0, 0)
  | Some (total, points) =>
      if decide (total = uninitialized) then Some (0, 0)
      else
        match userDecrypt acl contract user total,
              userDecrypt acl contract user points with
        | Some r, Some p => Some (r, p)
        | _, _ => None
        end
  end.

End Frontend.

(** The transactions the client and the command-line task build, on the
    reference backend. *)
Module Client.
Import Symbolic.






End Client.

(** More sample states: the funded campaign after [bob] has contributed as
    well, and after the fundraiser has ended it. *)
Module Sample2.
Import Symbolic Sample.

Definition crowd : list Tx :=
  [create; give 1 alice one_ether one_ether 1500; give 2 bob 5 5 1600].

Definition crowded : State := run this crowd initial_state.





End Sample2.

(** The campaign with two contributors on the backend with
    principal-bound inputs. *)
Module BoundSample.
Import Sample.

Definition create : Tx (B := Bound.backend) :=
  (env deployer 0 1000,
   CreateCampaign (B := Bound.backend) "Rocket Launch" 5000000000000000000 4600).

Definition give (id : N) (who : address) (value plain now : N)
  : Tx (B := Bound.backend) :=
  (env who value now,
   Contribute (B := Bound.backend) (input id plain who) Symbolic.attestation).

Definition crowded : State (B := Bound.backend) :=
  run this [create; give 1 alice one_ether one_ether 1500; give 2 bob 5 5 1600]
    initial_state.

End BoundSample.

(** * Properties *)

(** Evaluate the monad and the record updates, nothing else. *)
Ltac run_contract :=
  lazy beta iota zeta delta
    [createCampaign contribute endCampaign
     bind modify gets when ret revert emit checked_add call_value
     FHE_fromExternal FHE_allowThis FHE_allow
     createCampaign_post contribute_post endCampaign_post
     _campaign totalRaised _encryptedTotalRaised _encryptedTotalPoints
     _encryptedContributions _encryptedPoints balance acl events sent
     set_campaign set_totalRaised set_encryptedTotalRaised
     set_encryptedTotalPoints set_encryptedContributions
     set_encryptedPoints set_balance set_acl set_events set_sent
     app negb].

Section Properties.
Context `{B : FHEBackend}.
Variable this : address.

(** ** Unfolding the contract functions *)

Lemma createCampaign_unfold env nm target endTs s :
  createCampaign env nm target endTs s =
    if bool_decide (fundraiser (_campaign s) ≠ zero_address)
    then Revert CampaignAlreadyCreated s
    else if bool_decide (String.length nm = 0%nat) || (target =? 0)
            || (endTs <=? block_timestamp env)
    then Revert InvalidCampaignConfig s
    else Ok tt (createCampaign_post env nm target endTs s).
Proof.
  destruct s as [c ? ? ? ? ? ? ? ? ?]; run_contract.
  destruct (bool_decide (fundraiser c ≠ zero_address)); [done|].
  by destruct (bool_decide (String.length nm = 0%nat) || (target =? 0)
               || (endTs <=? block_timestamp env)).
Qed.

Lemma contribute_unfold env ea pf s :
  contribute this env ea pf s =
    if negb (isActive (_campaign s)) then Revert CampaignInactive s
    else if endTimestamp (_campaign s) <=? block_timestamp env
    then Revert CampaignAlreadyEnded s
    else if msg_value env =? 0 then Revert ZeroContribution s
    else match verifyInput ea pf (msg_sender env) this with
         | None => Revert InputVerificationFailed s
         | Some amount =>
             if decide (totalRaised s + msg_value env ≤ uint256_max)
             then Ok tt (contribute_post this env amount s)
             else Revert (Panic 17)
                    (set_encryptedTotalPoints
                       (_encryptedTotalPoints (contribute_post this env amount s))
                    (set_encryptedTotalRaised
                       (_encryptedTotalRaised (contribute_post this env amount s))
                    (set_encryptedPoints
                       (_encryptedPoints (contribute_post this env amount s))
                    (set_encryptedContributions
                       (_encryptedContributions (contribute_post this env amount s)) s))))
         end.
Proof.
  destruct s as [c ? ? ? ? ? ? ? ? ?]; run_contract.
  destruct (isActive c); [|done].
  destruct (endTimestamp c <=? block_timestamp env); [done|].
  destruct (msg_value env =? 0); [done|].
  destruct (verifyInput ea pf (msg_sender env) this) as [amount|]; [|done].
  destruct (decide (_ ≤ uint256_max)); [|done].
  by destruct (bool_decide (fundraiser c ≠ zero_address)).
Qed.

Lemma endCampaign_unfold env s :
  endCampaign env s =
    if bool_decide (msg_sender env ≠ fundraiser (_campaign s))
    then Revert Unauthorized s
    else if negb (isActive (_campaign s)) then Revert CampaignInactive s
    else if call_succeeds env then Ok tt (endCampaign_post env s)
    else Revert WithdrawalFailed
           (set_campaign (_campaign (endCampaign_post env s)) s).
Proof.
  destruct s as [c ? ? ? ? ? ? ? ? ?]; run_contract.
  destruct (bool_decide (msg_sender env ≠ fundraiser c)); [done|].
  destruct (isActive c); [|done].
  by destruct (call_succeeds env).
Qed.

Lemma dispatch_createCampaign env nm target endTs s :
  dispatch this (env, CreateCampaign nm target endTs) s =
    if negb (msg_value env =? 0) then Revert NonPayable s
    else createCampaign env nm target endTs s.
Proof.
  unfold dispatch, non_payable, bind, when, revert, ret; simpl.
  by destruct (msg_value env =? 0).
Qed.

Lemma dispatch_contribute env ea pf s :
  dispatch this (env, Contribute ea pf) s =
    contribute this env ea pf (set_balance (balance s + msg_value env) s).
Proof. reflexivity. Qed.

Lemma dispatch_endCampaign env s :
  dispatch this (env, EndCampaign) s =
    if negb (msg_value env =? 0) then Revert NonPayable s
    else endCampaign env s.
Proof.
  unfold dispatch, non_payable, bind, when, revert, ret; simpl.
  by destruct (msg_value env =? 0).
Qed.

Lemma dispatch_Ok tx s u s' :
  dispatch this tx s = Ok u s' → committed this tx s s'.
Proof.
  destruct tx as [env [nm target endTs | ea pf |]].
  - rewrite dispatch_createCampaign, createCampaign_unfold.
    destruct (msg_value env =? 0) eqn:Hv; [|done]. simpl.
    case_bool_decide as Hf; [done|].
    destruct (bool_decide (String.length nm = 0%nat) || (target =? 0)
              || (endTs <=? block_timestamp env)) eqn:Hc; [done|].
    intros [= _ <-].
    apply orb_false_iff in Hc as [Hc Hts].
    apply orb_false_iff in Hc as [Hnm Htg].
    apply bool_decide_eq_false in Hnm.
    apply N.eqb_neq in Htg. apply N.leb_gt in Hts. apply N.eqb_eq in Hv.
    by eapply (committed_create this (env, _)).
  - rewrite dispatch_contribute, contribute_unfold. simpl.
    destruct (isActive (_campaign s)) eqn:Ha; [|done]. simpl.
    destruct (endTimestamp (_campaign s) <=? block_timestamp env) eqn:Hts; [done|].
    destruct (msg_value env =? 0) eqn:Hv; [done|].
    destruct (verifyInput ea pf (msg_sender env) this) as [amount|] eqn:Hin; [|done].
    case_decide as Hle; [|done].
    intros [= _ <-].
    apply N.leb_gt in Hts. apply N.eqb_neq in Hv.
    by eapply (committed_contribute this (env, _)).
  - rewrite dispatch_endCampaign, endCampaign_unfold.
    destruct (msg_value env =? 0) eqn:Hv; [|done]. simpl.
    case_bool_decide as Hf; [done|].
    destruct (isActive (_campaign s)) eqn:Ha; [|done]. simpl.
    destruct (call_succeeds env) eqn:Hc; [|done].
    intros [= _ <-]. apply N.eqb_eq in Hv.
    by apply (committed_end this (env, _)).
Qed.

Lemma transact_cases tx s :
  transact this tx s = s ∨ committed this tx s (transact this tx s).
Proof.
  unfold transact. destruct (dispatch this tx s) as [u s'|e s'] eqn:Hd; [|by left].
  right. by eapply dispatch_Ok.
Qed.

Lemma accepted_committed tx s :
  accepted this tx s = true → committed this tx s (transact this tx s).
Proof.
  unfold accepted, transact.
  destruct (dispatch this tx s) as [u s'|e s'] eqn:Hd; [|done].
  intros _. by eapply dispatch_Ok.
Qed.

Lemma not_accepted_unchanged tx s :
  accepted this tx s = false → transact this tx s = s.
Proof.
  unfold accepted, transact. by destruct (dispatch this tx s).
Qed.

Lemma run_app txs1 txs2 s :
  run this (txs1 ++ txs2) s = run this txs2 (run this txs1 s).
Proof. revert s. induction txs1 as [|tx txs1 IH]; intros s; simpl; [done|apply IH]. Qed.

Lemma reachable_run txs s :
  Forall (λ tx : Tx, msg_sender tx.1 ≠ zero_address) txs →
  reachable this s → reachable this (run this txs s).
Proof.
  intros Hall. revert s.
  induction Hall as [|tx txs Htx _ IH]; intros s Hr; simpl; [done|].
  apply IH. by constructor.
Qed.

(** ** The campaign record across transactions *)

Lemma length_zero_empty (nm : string) : String.length nm = 0%nat ↔ nm = "".
Proof. by destruct nm. Qed.

(** Once set, the fundraiser never changes. *)
Lemma fundraiser_fixed tx s :
  fundraiser (_campaign s) ≠ zero_address →
  fundraiser (_campaign (transact this tx s)) = fundraiser (_campaign s).
Proof.
  intros Hf. destruct (transact_cases tx s) as [->|Hc]; [done|].
  by destruct Hc.
Qed.

Lemma fundraiser_fixed_run txs s :
  fundraiser (_campaign s) ≠ zero_address →
  fundraiser (_campaign (run this txs s)) = fundraiser (_campaign s).
Proof.
  revert s. induction txs as [|tx txs IH]; intros s Hf; simpl; [done|].
  rewrite IH; rewrite fundraiser_fixed; done.
Qed.

(** An ended campaign stays ended. *)
Lemma ended_fixed tx s :
  fundraiser (_campaign s) ≠ zero_address →
  isActive (_campaign s) = false →
  isActive (_campaign (transact this tx s)) = false.
Proof.
  intros Hf Ha. destruct (transact_cases tx s) as [->|Hc]; [done|].
  destruct Hc; simpl; congruence.
Qed.

Lemma ended_fixed_run txs s :
  fundraiser (_campaign s) ≠ zero_address →
  isActive (_campaign s) = false →
  isActive (_campaign (run this txs s)) = false.
Proof.
  revert s. induction txs as [|tx txs IH]; intros s Hf Ha; simpl; [done|].
  apply IH; [by rewrite fundraiser_fixed | by apply ended_fixed].
Qed.

(** ** Accepted contributions *)

Lemma contribution_of_Some tx s who v amount :
  contribution_of this tx s = Some (who, v, amount) →
  who = msg_sender tx.1 ∧ v = msg_value tx.1 ∧
  ∃ ea pf, tx.2 = Contribute ea pf ∧
    verifyInput ea pf (msg_sender tx.1) this = Some amount ∧
    committed this tx s (transact this tx s) ∧
    transact this tx s =
      contribute_post this tx.1 amount (set_balance (balance s + msg_value tx.1) s).
Proof.
  unfold contribution_of. destruct tx as [env [nm tg ts | ea pf |]]; simpl; try done.
  destruct (accepted this (env, Contribute ea pf) s) eqn:Hacc; [|done].
  pose proof (accepted_committed _ _ Hacc) as Hc.
  destruct (verifyInput ea pf (msg_sender env) this) as [a|] eqn:Hin; [|done].
  intros [= <- <- <-]. do 2 (split; [done|]). exists ea, pf.
  do 3 (split; [done|]).
  inversion Hc as [? ? ? [=] | ea' pf' a' [= <- <-] _ _ _ Hin' _ Heq | [=]].
  simpl in Hin'. congruence.
Qed.

Lemma contribution_of_None tx s :
  contribution_of this tx s = None →
  totalRaised (transact this tx s) = totalRaised s ∧
  _encryptedTotalRaised (transact this tx s) = _encryptedTotalRaised s ∧
  _encryptedTotalPoints (transact this tx s) = _encryptedTotalPoints s ∧
  _encryptedContributions (transact this tx s) = _encryptedContributions s ∧
  _encryptedPoints (transact this tx s) = _encryptedPoints s ∧
  acl (transact this tx s) = acl s.
Proof.
  intros Hnone. destruct (transact_cases tx s) as [->|Hc]; [done|].
  destruct Hc as [nm tg ts Hcall | ea pf amount Hcall ? ? ? Hin ? | Hcall]; [done| |done].
  exfalso. unfold contribution_of in Hnone. rewrite Hcall, Hin in Hnone.
  destruct (accepted this tx s) eqn:Hacc; [done|].
  unfold accepted in Hacc. destruct tx as [env call]; simpl in *; subst call.
  rewrite dispatch_contribute, contribute_unfold in Hacc. simpl in Hacc.
  rewrite Hin in Hacc.
  destruct (isActive (_campaign s)); [simpl in Hacc|done].
  destruct (endTimestamp (_campaign s) <=? block_timestamp env) eqn:Hts;
    [apply N.leb_le in Hts; lia|].
  destruct (msg_value env =? 0) eqn:Hv; [by apply N.eqb_eq in Hv|].
  by case_decide.
Qed.

Lemma totalRaised_transact tx s :
  totalRaised (transact this tx s) =
    totalRaised s + match contribution_of this tx s with
                    | Some c => c.1.2
                    | None => 0
                    end.
Proof.
  destruct (contribution_of this tx s) as [[[who v] amount]|] eqn:Hc.
  - apply contribution_of_Some in Hc as (_ & -> & ea & pf & _ & _ & _ & ->).
    reflexivity.
  - apply contribution_of_None in Hc as (-> & _). lia.
Qed.

Lemma totalRaised_run txs s :
  totalRaised (run this txs s) = totalRaised s + sum_values (ledger this txs s).
Proof.
  revert s. induction txs as [|tx txs IH]; intros s; simpl; [lia|].
  rewrite IH, totalRaised_transact.
  destruct (contribution_of this tx s) as [c|]; simpl; lia.
Qed.

(** ** Plaintext of the homomorphic operations *)

Lemma clear_or_zero (h : euint128) :
  clear (if isInitialized h then h else asEuint128 0) = clear h.
Proof.
  unfold isInitialized. case_bool_decide as Hh; [done|].
  rewrite Hh.
  rewrite clear_uninitialized. by apply clear_asEuint128.
Qed.

Lemma clear_FHE_add (a b : euint128) :
  clear (FHE_add a b) = (clear a + clear b) mod euint128_modulus.
Proof. unfold FHE_add. by rewrite clear_fheAdd, !clear_or_zero. Qed.

Lemma clear_FHE_div (a : euint128) (d : N) :
  d ≠ 0 → clear (FHE_div a d) = clear a / d.
Proof. intros Hd. unfold FHE_div. by rewrite clear_fheDiv, clear_or_zero. Qed.

Lemma FHE_add_initialized (a b : euint128) : FHE_add a b ≠ uninitialized.
Proof. apply fheAdd_initialized. Qed.

Lemma clear_default (m : gmap address euint128) (who : address) :
  m !! who = None → m !!! who = uninitialized ∧ clear (m !!! who) = 0.
Proof.
  intros Hnone. rewrite lookup_total_alt, Hnone. simpl.
  split; [done|apply clear_uninitialized].
Qed.

(** ** Sums over an encrypted mapping *)

Lemma sum_entries_insert (m : gmap address euint128) who h :
  sum_entries (<[who := h]> m) = clear h + sum_entries (delete who m).
Proof.
  unfold sum_entries. rewrite <- insert_delete_eq.
  apply (map_fold_insert_L (λ _ h acc, clear h + acc)).
  - intros; lia.
  - apply lookup_delete_eq.
Qed.

Lemma sum_entries_lookup (m : gmap address euint128) who :
  sum_entries m = clear (m !!! who) + sum_entries (delete who m).
Proof.
  destruct (m !! who) as [h|] eqn:Hm.
  - rewrite (lookup_total_correct _ _ _ Hm). unfold sum_entries.
    apply (map_fold_delete_L (λ _ h acc, clear h + acc)); [intros; lia|done].
  - destruct (clear_default _ _ Hm) as [_ ->]. by rewrite delete_id.
Qed.

(** Adding to one entry and to the total keeps the total the sum of the
    entries, modulo [2^128]. *)
Lemma sum_entries_step (m : gmap address euint128) who total h x :
  clear total = sum_entries m mod euint128_modulus →
  clear h = (clear (m !!! who) + x) mod euint128_modulus →
  (clear total + x) mod euint128_modulus
    = sum_entries (<[who := h]> m) mod euint128_modulus.
Proof.
  intros Htotal Hh.
  rewrite sum_entries_insert, Hh, Htotal, (sum_entries_lookup m who).
  rewrite N.Div0.add_mod_idemp_l, N.Div0.add_mod_idemp_l.
  f_equal. lia.
Qed.

(** ** Theorems about the lifecycle *)

(** C9.  Called while no campaign exists, [createCampaign] reverts with
    [InvalidCampaignConfig] exactly when the name is empty, the target is
    zero, or the end timestamp is not strictly after the block timestamp.
    Otherwise it succeeds, and the state it commits holds the complete
    campaign record (the given configuration, the caller as fundraiser,
    active) with every other storage variable as before.  A revert happens
    before any write. *)
Theorem createCampaign_uninitialized env nm target endTs s :
  fundraiser (_campaign s) = zero_address →
  let invalid := nm = "" ∨ target = 0 ∨ endTs ≤ block_timestamp env in
  (invalid ↔
     createCampaign env nm target endTs s = Revert InvalidCampaignConfig s) ∧
  (¬ invalid ↔
     ∃ s', createCampaign env nm target endTs s = Ok tt s' ∧
       _campaign s' = {| name := nm; targetAmount := target;
                         endTimestamp := endTs; fundraiser := msg_sender env;
                         isActive := true |} ∧
       totalRaised s' = totalRaised s ∧
       _encryptedTotalRaised s' = _encryptedTotalRaised s ∧
       _encryptedTotalPoints s' = _encryptedTotalPoints s ∧
       _encryptedContributions s' = _encryptedContributions s ∧
       _encryptedPoints s' = _encryptedPoints s ∧
       balance s' = balance s ∧ acl s' = acl s ∧ sent s' = sent s ∧
       events s' = CampaignCreated nm target endTs (msg_sender env) :: events s).
Proof.
  intros Hf invalid. rewrite createCampaign_unfold.
  rewrite bool_decide_eq_false_2 by (by intros []).
  destruct (bool_decide (String.length nm = 0%nat) || (target =? 0)
            || (endTs <=? block_timestamp env)) eqn:Hc.
  - assert (invalid) as Hinv.
    { apply orb_true_iff in Hc as [Hc|Hc].
      - apply orb_true_iff in Hc as [Hc|Hc].
        + left. apply length_zero_empty. by apply bool_decide_eq_true in Hc.
        + right; left. by apply N.eqb_eq.
      - right; right. by apply N.leb_le. }
    split; [done|]. split; [done|]. by intros (s' & [=] & _).
  - assert (¬ invalid) as Hinv.
    { apply orb_false_iff in Hc as [Hc Hts].
      apply orb_false_iff in Hc as [Hnm Htg].
      apply bool_decide_eq_false in Hnm. apply N.eqb_neq in Htg.
      apply N.leb_gt in Hts. rewrite length_zero_empty in Hnm.
      intros [?|[?|?]]; [done|done|lia]. }
    split; [split; [done|intros [=]]|].
    split; [|done]. intros _.
    eexists; split; [reflexivity|]. by destruct s.
Qed.

(** C4.  After a [createCampaign] by a non-null caller has succeeded, every
    later [createCampaign], whatever was called in between, reverts with
    [CampaignAlreadyCreated] before any write, and the transaction leaves
    every field of the campaign record (indeed the whole state) as it was. *)
Theorem single_creation env nm target endTs s s1 txs env' nm' target' endTs' :
  msg_sender env ≠ zero_address →
  createCampaign env nm target endTs s = Ok tt s1 →
  let s2 := run this txs s1 in
  let again := (env', CreateCampaign nm' target' endTs') in
  createCampaign env' nm' target' endTs' s2 = Revert CampaignAlreadyCreated s2 ∧
  accepted this again s2 = false ∧
  transact this again s2 = s2 ∧
  _campaign (transact this again s2) = _campaign s2.
Proof.
  intros Hsender Hok s2 again.
  assert (fundraiser (_campaign s1) ≠ zero_address) as Hf1.
  { rewrite createCampaign_unfold in Hok.
    destruct (bool_decide (fundraiser (_campaign s) ≠ zero_address)); [done|].
    destruct (_ || _); [done|]. injection Hok as <-. by destruct s. }
  assert (fundraiser (_campaign s2) ≠ zero_address) as Hf2.
  { unfold s2. by rewrite fundraiser_fixed_run. }
  assert (createCampaign env' nm' target' endTs' s2
          = Revert CampaignAlreadyCreated s2) as Hrev.
  { rewrite createCampaign_unfold. by rewrite bool_decide_eq_true_2. }
  assert (accepted this again s2 = false) as Hacc.
  { unfold accepted, again. rewrite dispatch_createCampaign, Hrev.
    by destruct (negb _). }
  split; [done|]. split; [done|].
  rewrite (not_accepted_unchanged _ _ Hacc). done.
Qed.

(** C6.  [contribute] reverts with [CampaignInactive] when the campaign is
    not active; with [CampaignAlreadyEnded] when it is active and the block
    timestamp is not strictly before [endTimestamp]; with
    [ZeroContribution] when it is active, in time, and no value is
    attached; and it reverts when the input proof does not validate.  Each
    of these reverts happens before the function has written anything, and
    a [contribute] transaction that reverts for any reason leaves the whole
    state (ledger, settlement total, allow-list) as it was. *)
Theorem contribute_rejections env ea pf s :
  (isActive (_campaign s) = false →
     contribute this env ea pf s = Revert CampaignInactive s) ∧
  (isActive (_campaign s) = true →
   endTimestamp (_campaign s) ≤ block_timestamp env →
     contribute this env ea pf s = Revert CampaignAlreadyEnded s) ∧
  (isActive (_campaign s) = true →
   block_timestamp env < endTimestamp (_campaign s) →
   msg_value env = 0 →
     contribute this env ea pf s = Revert ZeroContribution s) ∧
  (isActive (_campaign s) = true →
   block_timestamp env < endTimestamp (_campaign s) →
   msg_value env ≠ 0 →
   verifyInput ea pf (msg_sender env) this = None →
     contribute this env ea pf s = Revert InputVerificationFailed s) ∧
  (∀ e s', dispatch this (env, Contribute ea pf) s = Revert e s' →
     transact this (env, Contribute ea pf) s = s).
Proof.
  rewrite contribute_unfold. repeat split.
  - by intros ->.
  - intros -> Hts. apply N.leb_le in Hts. by rewrite Hts.
  - intros -> Hts ->. apply N.leb_gt in Hts. by rewrite Hts.
  - intros -> Hts Hv ->. apply N.leb_gt in Hts. apply N.eqb_neq in Hv.
    by rewrite Hts, Hv.
  - intros e s' Hrev. unfold transact. by rewrite Hrev.
Qed.

(** C10.  After an [endCampaign] by a non-null caller has succeeded, every
    later [contribute], whatever was called in between and whatever the
    block timestamp, reverts with [CampaignInactive]: the activity check
    comes first, so [CampaignAlreadyEnded] is never the error. *)
Theorem contribute_after_end env s s1 txs env' ea pf :
  msg_sender env ≠ zero_address →
  endCampaign env s = Ok tt s1 →
  let s2 := run this txs s1 in
  contribute this env' ea pf s2 = Revert CampaignInactive s2 ∧
  (∃ s', dispatch this (env', Contribute ea pf) s2 = Revert CampaignInactive s') ∧
  transact this (env', Contribute ea pf) s2 = s2.
Proof.
  intros Hsender Hok s2.
  rewrite endCampaign_unfold in Hok.
  case_bool_decide as Hf; [done|].
  destruct (isActive (_campaign s)); [simpl in Hok|done].
  destruct (call_succeeds env); [|done]. injection Hok as <-.
  assert (isActive (_campaign s2) = false) as Ha.
  { apply ended_fixed_run; simpl; [congruence|done]. }
  assert (∀ st, isActive (_campaign st) = false →
                contribute this env' ea pf st = Revert CampaignInactive st) as Hrev.
  { intros st Hst. rewrite contribute_unfold. by rewrite Hst. }
  split; [by apply Hrev|].
  assert (dispatch this (env', Contribute ea pf) s2 =
          Revert CampaignInactive (set_balance (balance s2 + msg_value env') s2)) as Hd.
  { rewrite dispatch_contribute. apply Hrev. by destruct s2. }
  split; [by eexists|]. unfold transact. by rewrite Hd.
Qed.

(** C1.  Starting from deployment, after any sequence of transactions the
    plaintext [totalRaised] is exactly the sum of the public values of the
    accepted [contribute] calls.  Each transaction adds the attached value
    when it is an accepted contribution and leaves [totalRaised] alone
    otherwise; this includes [endCampaign], which sweeps the balance but
    does not touch [totalRaised]. *)
Theorem totalRaised_conservation txs :
  totalRaised (run this txs initial_state)
    = sum_values (ledger this txs initial_state) ∧
  ∀ tx s,
    totalRaised (transact this tx s) =
      totalRaised s + match contribution_of this tx s with
                      | Some c => c.1.2
                      | None => 0
                      end.
Proof.
  split; [|apply totalRaised_transact].
  rewrite totalRaised_run. reflexivity.
Qed.

(** ** Settlement *)

(** Before a campaign is created the storage and the logs are as
    deployed; while it is active no funds have left and the balance covers
    the plaintext total (it can exceed it: value can be credited without a
    call); once it has been ended, one transfer has been made, to the
    fundraiser. *)
Lemma settlement_invariant s :
  reachable this s →
  (fundraiser (_campaign s) = zero_address → pristine s) ∧
  (isActive (_campaign s) = true →
     fundraiser (_campaign s) ≠ zero_address ∧ sent s = [] ∧
     totalRaised s ≤ balance s) ∧
  (fundraiser (_campaign s) ≠ zero_address → isActive (_campaign s) = false →
     ∃ amount, sent s = [(fundraiser (_campaign s), amount)]).
Proof.
  induction 1 as [|tx s Hr IH Hsender|v s Hr IH].
  - split; [intros _; by repeat split|]. by split.
  - destruct IH as (Hinit & Hact & Hend).
    destruct (transact_cases tx s) as [->|Hc]; [done|].
    destruct Hc as [nm tg ts Hcall Hv Hf Hnm Htg Hts
                   | ea pf amount Hcall Ha Hts Hv Hin Hle
                   | Hcall Hv Hsnd Ha Hok].
    + destruct (Hinit Hf) as (_ & Htot & _ & _ & _ & _ & _ & _ & Hsent).
      simpl. split; [done|]. split; [|done].
      intros _. split; [done|]. split; [done|]. rewrite Htot. lia.
    + destruct (Hact Ha) as (Hf & Hsent & Hbal). simpl.
      split; [done|]. split; [|congruence].
      intros _. split; [done|]. split; [done|]. lia.
    + destruct (Hact Ha) as (Hf & Hsent & Hbal). simpl.
      split; [done|]. split; [done|].
      intros _ _. exists (balance s). by rewrite Hsent.
  - destruct IH as (Hinit & Hact & Hend). simpl.
    split; [exact Hinit|]. split; [|exact Hend].
    intros Ha. destruct (Hact Ha) as (Hf & Hsent & Hbal).
    split; [done|]. split; [done|]. lia.
Qed.


(** ** The encrypted ledger *)

Lemma totals_invariant s :
  reachable this s →
  clear (_encryptedTotalRaised s)
    = sum_entries (_encryptedContributions s) mod euint128_modulus ∧
  clear (_encryptedTotalPoints s)
    = sum_entries (_encryptedPoints s) mod euint128_modulus.
Proof.
  induction 1 as [|tx s Hr [IHr IHp] Hsender|v s Hr IH].
  - simpl. unfold sum_entries. rewrite map_fold_empty, clear_uninitialized.
    done.
  - destruct (transact_cases tx s) as [->|Hc]; [done|].
    destruct Hc as [nm tg ts Hcall | ea pf amount Hcall | Hcall]; [done| |done].
    simpl. rewrite !clear_FHE_add. split.
    + apply sum_entries_step; [done|]. by rewrite clear_FHE_add.
    + apply sum_entries_step; [done|]. by rewrite clear_FHE_add.
  - exact IH.
Qed.

(** What an accepted contribution does to the encrypted ledger. *)
Lemma contribution_ledger tx s who v amount :
  contribution_of this tx s = Some (who, v, amount) →
  let s' := transact this tx s in
  _encryptedContributions s' =
    <[who := FHE_add (_encryptedContributions s !!! who) amount]>
      (_encryptedContributions s) ∧
  _encryptedPoints s' =
    <[who := FHE_add (_encryptedPoints s !!! who) (FHE_div amount POINTS_DIVISOR)]>
      (_encryptedPoints s) ∧
  _encryptedTotalRaised s' = FHE_add (_encryptedTotalRaised s) amount ∧
  _encryptedTotalPoints s' =
    FHE_add (_encryptedTotalPoints s) (FHE_div amount POINTS_DIVISOR).
Proof.
  intros Hc s'. unfold s'.
  apply contribution_of_Some in Hc as (-> & _ & ea & pf & _ & _ & _ & ->).
  done.
Qed.

Lemma entries_persist tx s who :
  (is_Some (_encryptedContributions s !! who) →
   is_Some (_encryptedContributions (transact this tx s) !! who)) ∧
  (is_Some (_encryptedPoints s !! who) →
   is_Some (_encryptedPoints (transact this tx s) !! who)).
Proof.
  destruct (contribution_of this tx s) as [[[w v] amount]|] eqn:Hc.
  - destruct (contribution_ledger _ _ _ _ _ Hc) as (-> & -> & _).
    split; intros Hs; (destruct (decide (w = who)) as [->|Hne];
      [rewrite lookup_insert_eq; eauto | by rewrite lookup_insert_ne]).
  - apply contribution_of_None in Hc as (_ & _ & _ & -> & -> & _). done.
Qed.

Lemma entries_persist_run txs s who :
  (is_Some (_encryptedContributions s !! who) →
   is_Some (_encryptedContributions (run this txs s) !! who)) ∧
  (is_Some (_encryptedPoints s !! who) →
   is_Some (_encryptedPoints (run this txs s) !! who)).
Proof.
  revert s. induction txs as [|tx txs IH]; intros s; simpl; [done|].
  destruct (IH (transact this tx s)) as [IHc IHp].
  destruct (entries_persist tx s who) as [Hc Hp].
  split; auto.
Qed.

Lemma mod_add_le (x y : N) :
  x < euint128_modulus → x + y < euint128_modulus →
  x ≤ (x + y) mod euint128_modulus.
Proof. intros Hx Hxy. rewrite N.mod_small by done. lia. Qed.

(** C7.  In every reachable state the plaintext of
    [_encryptedTotalRaised] is the sum of the plaintexts of all
    [_encryptedContributions] entries modulo [2^128], and likewise for the
    points.  A contributor without an entry reads the uninitialized handle,
    whose plaintext is zero; an entry, once present, is present in every
    later state.  An accepted contribution makes the caller's two entries
    present and initialized, replaces each by the homomorphic sum of the
    old entry and the ingested amount (resp. its points), and leaves every
    other contributor's entries alone; no other transaction changes the
    entries.  So an entry's plaintext does not decrease as long as the
    128-bit addition does not wrap. *)
Theorem encrypted_ledger_invariant s :
  reachable this s →
  (clear (_encryptedTotalRaised s)
     = sum_entries (_encryptedContributions s) mod euint128_modulus ∧
   clear (_encryptedTotalPoints s)
     = sum_entries (_encryptedPoints s) mod euint128_modulus) ∧
  (∀ who,
     (_encryptedContributions s !! who = None →
        getEncryptedContribution s who = uninitialized ∧
        clear (getEncryptedContribution s who) = 0) ∧
     (_encryptedPoints s !! who = None →
        getEncryptedPoints s who = uninitialized ∧
        clear (getEncryptedPoints s who) = 0)) ∧
  (∀ txs who,
     (is_Some (_encryptedContributions s !! who) →
      is_Some (_encryptedContributions (run this txs s) !! who)) ∧
     (is_Some (_encryptedPoints s !! who) →
      is_Some (_encryptedPoints (run this txs s) !! who))) ∧
  (∀ tx who v amount,
     contribution_of this tx s = Some (who, v, amount) →
     let s' := transact this tx s in
     let before := clear (getEncryptedContribution s who) in
     let points_before := clear (getEncryptedPoints s who) in
     is_Some (_encryptedContributions s' !! who) ∧
     is_Some (_encryptedPoints s' !! who) ∧
     getEncryptedContribution s' who ≠ uninitialized ∧
     getEncryptedPoints s' who ≠ uninitialized ∧
     clear (getEncryptedContribution s' who)
       = (before + clear amount) mod euint128_modulus ∧
     clear (getEncryptedPoints s' who)
       = (points_before + clear amount / POINTS_DIVISOR) mod euint128_modulus ∧
     (before + clear amount < euint128_modulus →
        before ≤ clear (getEncryptedContribution s' who)) ∧
     (points_before + clear amount / POINTS_DIVISOR < euint128_modulus →
        points_before ≤ clear (getEncryptedPoints s' who)) ∧
     (∀ other, other ≠ who →
        _encryptedContributions s' !! other = _encryptedContributions s !! other ∧
        _encryptedPoints s' !! other = _encryptedPoints s !! other)) ∧
  (∀ tx,
     contribution_of this tx s = None →
     _encryptedContributions (transact this tx s) = _encryptedContributions s ∧
     _encryptedPoints (transact this tx s) = _encryptedPoints s).
Proof.
  intros Hr. split; [by apply totals_invariant|].
  split; [intros who; split; apply clear_default|].
  split; [intros txs who; apply entries_persist_run|].
  split.
  - intros tx who v amount Hc s' before points_before.
    destruct (contribution_ledger _ _ _ _ _ Hc) as (Hcs & Hps & _).
    fold s' in Hcs, Hps.
    assert (clear (getEncryptedContribution s' who)
            = (before + clear amount) mod euint128_modulus) as Hcc.
    { unfold getEncryptedContribution. rewrite Hcs, lookup_total_insert_eq.
      by rewrite clear_FHE_add. }
    assert (clear (getEncryptedPoints s' who)
            = (points_before + clear amount / POINTS_DIVISOR)
                mod euint128_modulus) as Hpp.
    { unfold getEncryptedPoints. rewrite Hps, lookup_total_insert_eq.
      by rewrite clear_FHE_add, clear_FHE_div. }
    split; [rewrite Hcs, lookup_insert_eq; eauto|].
    split; [rewrite Hps, lookup_insert_eq; eauto|].
    split; [unfold getEncryptedContribution;
            rewrite Hcs, lookup_total_insert_eq; apply FHE_add_initialized|].
    split; [unfold getEncryptedPoints;
            rewrite Hps, lookup_total_insert_eq; apply FHE_add_initialized|].
    do 2 (split; [done|]).
    split; [intros Hfit; rewrite Hcc; apply mod_add_le; [apply clear_bound|done]|].
    split; [intros Hfit; rewrite Hpp; apply mod_add_le; [apply clear_bound|done]|].
    intros other Hne. rewrite Hcs, Hps. by rewrite !lookup_insert_ne.
  - intros tx Hc. by apply contribution_of_None in Hc as (_ & _ & _ & -> & -> & _).
Qed.

(** ** Points *)

Lemma div_add_le (a b d : N) : a / d + b / d ≤ (a + b) / d.
Proof.
  destruct (decide (d = 0)) as [->|Hd]; [by rewrite !N.div_0_r|].
  apply N.div_le_lower_bound; [done|].
  pose proof (N.Div0.mul_div_le a d). pose proof (N.Div0.mul_div_le b d). lia.
Qed.

Lemma div_add_lt (a b d : N) :
  d ≠ 0 → d ≤ a mod d + b mod d → a / d + b / d < (a + b) / d.
Proof.
  intros Hd Hrem.
  assert (a / d + b / d + 1 ≤ (a + b) / d); [|lia].
  apply N.div_le_lower_bound; [done|].
  pose proof (N.div_mod a d Hd). pose proof (N.div_mod b d Hd). lia.
Qed.

Lemma quotients_fit (M a b d : N) :
  2 ≤ d → a < M → b < M → a / d < M ∧ a / d + b / d < M.
Proof.
  intros Hd Ha Hb.
  assert (a / d ≤ a / 2 ∧ b / d ≤ b / 2) as [La Lb].
  { split; apply N.div_le_compat_l; lia. }
  pose proof (N.Div0.mul_div_le a 2). pose proof (N.Div0.mul_div_le b 2).
  lia.
Qed.

(** C2.  An accepted [contribute] adds [floor(a / 1_000_000_000_000)] to
    the caller's [_encryptedPoints] entry and to [_encryptedTotalPoints],
    where [a] is the plaintext of the ingested amount (additions are the
    128-bit homomorphic ones).  For two contributions [a1], [a2] from the
    same contributor, with the entry untouched in between and empty at the
    start, the accumulated points are [a1/D + a2/D]: never more than
    [(a1 + a2)/D], and strictly less when the two remainders add up to at
    least [D]. *)
Theorem points_truncation env1 ea1 pf1 env2 ea2 pf2 s s1 s1' s2 :
  contribute this env1 ea1 pf1 s = Ok tt s1 →
  msg_sender env2 = msg_sender env1 →
  getEncryptedPoints s1' (msg_sender env1) = getEncryptedPoints s1 (msg_sender env1) →
  contribute this env2 ea2 pf2 s1' = Ok tt s2 →
  let who := msg_sender env1 in
  let D := POINTS_DIVISOR in
  ∃ a1 a2,
    verifyInput ea1 pf1 who this = Some a1 ∧
    verifyInput ea2 pf2 who this = Some a2 ∧
    clear (getEncryptedPoints s1 who)
      = (clear (getEncryptedPoints s who) + clear a1 / D) mod euint128_modulus ∧
    clear (_encryptedTotalPoints s1)
      = (clear (_encryptedTotalPoints s) + clear a1 / D) mod euint128_modulus ∧
    clear (getEncryptedPoints s2 who)
      = (clear (getEncryptedPoints s1 who) + clear a2 / D) mod euint128_modulus ∧
    clear (_encryptedTotalPoints s2)
      = (clear (_encryptedTotalPoints s1') + clear a2 / D) mod euint128_modulus ∧
    (clear (getEncryptedPoints s who) = 0 →
       clear (getEncryptedPoints s2 who) = clear a1 / D + clear a2 / D) ∧
    clear a1 / D + clear a2 / D ≤ (clear a1 + clear a2) / D ∧
    (D ≤ clear a1 mod D + clear a2 mod D →
       clear a1 / D + clear a2 / D < (clear a1 + clear a2) / D).
Proof.
  intros H1 Hsame Hkeep H2 who D.
  assert (∀ env ea pf st st',
            contribute this env ea pf st = Ok tt st' →
            ∃ a, verifyInput ea pf (msg_sender env) this = Some a ∧
                 st' = contribute_post this env a st) as Hpost.
  { intros env ea pf st st'. rewrite contribute_unfold.
    destruct (negb _); [done|]. destruct (_ <=? _); [done|].
    destruct (_ =? _); [done|].
    destruct (verifyInput ea pf (msg_sender env) this) as [a|]; [|done].
    case_decide; [|done]. intros [= <-]. by exists a. }
  destruct (Hpost _ _ _ _ _ H1) as (a1 & Hin1 & ->).
  destruct (Hpost _ _ _ _ _ H2) as (a2 & Hin2 & ->).
  rewrite Hsame in Hin2. exists a1, a2.
  assert (∀ env a st,
            clear (getEncryptedPoints (contribute_post this env a st) (msg_sender env))
            = (clear (getEncryptedPoints st (msg_sender env)) + clear a / D)
                mod euint128_modulus) as Hpts.
  { intros env a st. unfold getEncryptedPoints. simpl.
    rewrite lookup_total_insert_eq. by rewrite clear_FHE_add, clear_FHE_div. }
  assert (∀ env a st,
            clear (_encryptedTotalPoints (contribute_post this env a st))
            = (clear (_encryptedTotalPoints st) + clear a / D)
                mod euint128_modulus) as Htot.
  { intros env a st. simpl. by rewrite clear_FHE_add, clear_FHE_div. }
  pose proof (Hpts env1 a1 s) as E1. pose proof (Hpts env2 a2 s1') as E2.
  rewrite Hsame, Hkeep in E2. fold who in E1, E2.
  do 2 (split; [done|]). split; [done|]. split; [apply Htot|].
  split; [done|]. split; [apply Htot|].
  split; [|split; [apply div_add_le|apply div_add_lt; done]].
  intros Hzero. rewrite E2, E1, Hzero, N.add_0_l.
  destruct (quotients_fit euint128_modulus (clear a1) (clear a2) D)
    as [F1 F2]; [done|apply clear_bound|apply clear_bound|].
  rewrite (N.mod_small (clear a1 / D)) by done.
  by apply N.mod_small.
Qed.

(** ** The two bookkeeping systems side by side *)

Lemma encryptedTotalRaised_run txs s :
  clear (_encryptedTotalRaised (run this txs s))
    = (clear (_encryptedTotalRaised s) + sum_amounts (ledger this txs s))
        mod euint128_modulus.
Proof.
  revert s. induction txs as [|tx txs IH]; intros s; simpl.
  - rewrite N.add_0_r, N.mod_small; [done|apply clear_bound].
  - rewrite IH.
    destruct (contribution_of this tx s) as [[[who v] amount]|] eqn:Hc.
    + destruct (contribution_ledger _ _ _ _ _ Hc) as (_ & _ & -> & _).
      rewrite clear_FHE_add, N.Div0.add_mod_idemp_l. simpl.
      f_equal. lia.
    + by apply contribution_of_None in Hc as (_ & -> & _).
Qed.

Lemma sums_agree (l : list (address * N * euint128)) :
  Forall (λ c, clear c.2 = c.1.2) l → sum_amounts l = sum_values l.
Proof. induction 1 as [|c l Hc _ IH]; simpl; [done|]. by rewrite Hc, IH. Qed.

(** C3.  The contract keeps the two totals independently and
    never compares them: after any sequence of transactions [totalRaised]
    is the sum of the public values of the accepted contributions, and the
    plaintext of [_encryptedTotalRaised] is the sum, modulo [2^128], of the
    plaintexts of the ingested amounts.  So the two totals agree modulo
    [2^128] exactly when the two sums do.  It is enough for this (it is
    not necessary) that every contributor encrypted the very value they
    attached; the agreement is then exact while the total fits in 128
    bits. *)
Theorem ledger_agreement txs :
  let s := run this txs initial_state in
  let l := ledger this txs initial_state in
  totalRaised s = sum_values l ∧
  clear (_encryptedTotalRaised s) = sum_amounts l mod euint128_modulus ∧
  (clear (_encryptedTotalRaised s) = totalRaised s mod euint128_modulus ↔
     sum_amounts l mod euint128_modulus = sum_values l mod euint128_modulus) ∧
  (Forall (λ c, clear c.2 = c.1.2) l →
     clear (_encryptedTotalRaised s) = totalRaised s mod euint128_modulus ∧
     (totalRaised s < euint128_modulus →
        clear (_encryptedTotalRaised s) = totalRaised s)).
Proof.
  intros s l.
  assert (totalRaised s = sum_values l) as Hpub.
  { unfold s, l. by rewrite totalRaised_run. }
  assert (clear (_encryptedTotalRaised s) = sum_amounts l mod euint128_modulus)
    as Henc.
  { unfold s, l. rewrite encryptedTotalRaised_run. simpl.
    by rewrite clear_uninitialized. }
  do 2 (split; [done|]). split; [by rewrite Henc, Hpub|]. intros Hall.
  rewrite Henc, (sums_agree _ Hall), <- Hpub. split; [done|].
  intros Hfit. by apply N.mod_small.
Qed.

(** ** Capability grants *)

Lemma acl_grows tx s : ∃ new, acl (transact this tx s) = new ++ acl s.
Proof.
  destruct (transact_cases tx s) as [->|Hc]; [by exists []|].
  destruct Hc; simpl; try (by exists []).
  case_bool_decide;
    [by eexists [_; _; _; _; _; _; _; _] | by eexists [_; _; _; _; _; _]].
Qed.

(** The grants an accepted contribution issues, most recent first. *)
Lemma contribution_grants tx s who v amount :
  contribution_of this tx s = Some (who, v, amount) →
  fundraiser (_campaign s) ≠ zero_address →
  let s' := transact this tx s in
  acl s' =
    [(_encryptedTotalPoints s', fundraiser (_campaign s));
     (_encryptedTotalRaised s', fundraiser (_campaign s));
     (_encryptedTotalPoints s', this);
     (_encryptedTotalRaised s', this);
     (getEncryptedPoints s' who, who);
     (getEncryptedPoints s' who, this);
     (getEncryptedContribution s' who, who);
     (getEncryptedContribution s' who, this)] ++ acl s.
Proof.
  intros Hc Hf s'. unfold s', getEncryptedPoints, getEncryptedContribution.
  apply contribution_of_Some in Hc as (-> & _ & ea & pf & _ & _ & _ & ->).
  simpl. rewrite bool_decide_eq_true_2 by done.
  by rewrite !lookup_total_insert_eq.
Qed.

(** Every grant held by anyone but the contract itself was issued over a
    value that was, in some earlier or the present state, one of the
    holder's own entries, or a grand total when the holder is the
    fundraiser. *)
Lemma grants_entitled s :
  reachable this s →
  ∀ h p, (h, p) ∈ acl s →
    p = this ∨
    ∃ s0, reachable this s0 ∧ evolves this s0 s ∧ entitled s0 h p.
Proof.
  induction 1 as [|tx s Hr IH Hsender|v s Hr IH]; intros h p Hin;
    [by inversion Hin| |].
  - assert ((h, p) ∈ acl s →
            p = this ∨
            ∃ s0, reachable this s0 ∧ evolves this s0 (transact this tx s) ∧
                  entitled s0 h p) as Hold.
    { intros Hin'. destruct (IH _ _ Hin') as [?|(s0 & Hr0 & Hev & He)]; [by left|].
      right. exists s0. split; [done|]. split; [by constructor|done]. }
    destruct (contribution_of this tx s) as [[[who v] amount]|] eqn:Hc.
    + assert (isActive (_campaign s) = true) as Ha.
      { apply contribution_of_Some in Hc as (_ & _ & ea & pf & Hcall & _ & Hcom & _).
        destruct Hcom; congruence. }
      destruct (settlement_invariant s Hr) as (_ & Hact & _).
      destruct (Hact Ha) as (Hf & _).
      assert (reachable this (transact this tx s)) as Hr' by by constructor.
      destruct (contribution_ledger _ _ _ _ _ Hc) as (Hcs & Hps & _).
      rewrite (contribution_grants _ _ _ _ _ Hc Hf) in Hin.
      rewrite <- (fundraiser_fixed tx s Hf) in Hin.
      unfold getEncryptedPoints, getEncryptedContribution in Hin.
      rewrite Hcs, Hps, !lookup_total_insert_eq in Hin.
      apply elem_of_app in Hin as [Hnew|Hin']; [|by apply Hold].
      repeat (apply elem_of_cons in Hnew as [[= -> ->]|Hnew]);
        try (by left);
        try (by inversion Hnew);
        right; exists (transact this tx s); (split; [done|]);
        (split; [apply evolves_refl|]).
      * right; right. split; [done|]. by right.
      * right; right. split; [done|]. by left.
      * right; left. rewrite Hps. apply lookup_insert_eq.
      * left. rewrite Hcs. apply lookup_insert_eq.
    + apply contribution_of_None in Hc as (_ & _ & _ & _ & _ & Hacl).
      rewrite Hacl in Hin. by apply Hold.
  - destruct (IH _ _ Hin) as [?|(s0 & Hr0 & Hev & He)]; [by left|].
    right. exists s0. split; [done|]. split; [by constructor|done].
Qed.

(** ** Separation of the contributors *)

Lemma or_zero_initialized (h : euint128) :
  h ≠ uninitialized → (if isInitialized h then h else asEuint128 0) = h.
Proof. intros Hh. unfold isInitialized. by rewrite bool_decide_eq_true_2. Qed.

(** On a collision-free runtime, the two values an accepted contribution
    stores for its caller have the caller's ingested amount as an
    operand. *)
Lemma stored_shapes who a x y :
  CollisionFree → ingested_from this who a →
  contribution_value_of this who (FHE_add x a) ∧
  points_value_of this who (FHE_add y (FHE_div a POINTS_DIVISOR)).
Proof.
  intros free Hing. pose proof Hing as (e & pf & Hin).
  pose proof (input_initialized free _ _ _ _ _ Hin) as Ha.
  unfold FHE_add, FHE_div. rewrite (or_zero_initialized a Ha).
  rewrite (or_zero_initialized (fheDiv a POINTS_DIVISOR))
    by apply (fheDiv_initialized free).
  split; eexists _, a; by split.
Qed.

(** Every entry has the shape of a value stored for its owner, and every
    grant held by anyone but the contract is over a value of that shape
    stored for the holder, or over a grand total when the holder is the
    fundraiser. *)
Lemma ownership_invariant s :
  CollisionFree → reachable this s →
  (∀ who h, _encryptedContributions s !! who = Some h →
     contribution_value_of this who h) ∧
  (∀ who h, _encryptedPoints s !! who = Some h → points_value_of this who h) ∧
  (∀ h p, (h, p) ∈ acl s →
     p = this ∨ contribution_value_of this p h ∨ points_value_of this p h ∨
     (p = fundraiser (_campaign s) ∧ was_total this s h)).
Proof.
  intros free.
  induction 1 as [|tx s Hr IH Hsender|v s Hr IH].
  - split; [|split];
      [intros who h Hl; simpl in Hl; by rewrite lookup_empty in Hl..|].
    intros h p Hin. by inversion Hin.
  - destruct IH as (IHc & IHp & IHg).
    destruct (settlement_invariant s Hr) as (Hinit & Hact & _).
    assert (reachable this (transact this tx s)) as Hr' by by constructor.
    assert (∀ h p, fundraiser (_campaign (transact this tx s))
                     = fundraiser (_campaign s) →
                   (h, p) ∈ acl s →
                   p = this ∨ contribution_value_of this p h ∨
                   points_value_of this p h ∨
                   (p = fundraiser (_campaign (transact this tx s)) ∧
                    was_total this (transact this tx s) h)) as Hold.
    { intros h p Hfix Hin.
      destruct (IHg _ _ Hin) as [?|[?|[?|(Hp & s0 & Hr0 & Hev & Ht)]]]; auto.
      do 3 right. split; [congruence|]. exists s0.
      split; [done|]. split; [by constructor|done]. }
    assert (∀ h, h = _encryptedTotalRaised (transact this tx s) ∨
                 h = _encryptedTotalPoints (transact this tx s) →
                 was_total this (transact this tx s) h) as Hnow.
    { intros h Ht. exists (transact this tx s).
      split; [done|]. split; [apply evolves_refl|done]. }
    destruct (transact_cases tx s) as [Heq|Hc].
    { rewrite Heq in *. by split; [|split]. }
    revert Hold Hnow. generalize (transact this tx s) Hc. clear Hr'.
    intros post Hc'.
    destruct Hc' as [nm tg ts Hcall Hv Hf Hnm Htg Hts
                    | ea pf amount Hcall Ha Hts Hv Hin Hle
                    | Hcall Hv Hsnd Ha Hok]; intros Hold Hnow.
    + destruct (Hinit Hf) as (_ & _ & _ & _ & Hcm & Hpm & Hacl & _). simpl.
      rewrite Hcm, Hpm, Hacl.
      split; [|split]; [intros who h Hl; by rewrite lookup_empty in Hl..|].
      intros h p Hel. by inversion Hel.
    + destruct (Hact Ha) as (Hf & _).
      assert (ingested_from this (msg_sender tx.1) amount) as Hing
        by (by exists ea, pf).
      pose proof (λ x y, stored_shapes (msg_sender tx.1) amount x y free Hing)
        as Hshape.
      simpl in Hold, Hnow |- *.
      rewrite bool_decide_eq_true_2 by done. simpl.
      split; [|split].
      * intros who h. destruct (decide (msg_sender tx.1 = who)) as [<-|Hne].
        -- rewrite lookup_insert_eq. intros [= <-]. apply (Hshape _ uninitialized).
        -- rewrite lookup_insert_ne by done. apply IHc.
      * intros who h. destruct (decide (msg_sender tx.1 = who)) as [<-|Hne].
        -- rewrite lookup_insert_eq. intros [= <-]. apply (Hshape uninitialized).
        -- rewrite lookup_insert_ne by done. apply IHp.
      * intros h p Hel.
        repeat (apply elem_of_cons in Hel as [[= -> ->]|Hel]);
          try (by left); try (by apply Hold).
        -- do 3 right. split; [done|]. apply Hnow. by right.
        -- do 3 right. split; [done|]. apply Hnow. by left.
        -- right; right; left. apply (Hshape uninitialized).
        -- right; left. apply (Hshape _ uninitialized).
    + simpl in Hold, Hnow |- *. split; [done|]. split; [done|].
      intros h p Hel. by apply Hold.
  - destruct IH as (IHc & IHp & IHg). simpl. split; [done|]. split; [done|].
    intros h p Hin.
    destruct (IHg _ _ Hin) as [?|[?|[?|(Hp & s0 & Hr0 & Hev & Ht)]]]; auto.
    do 3 right. split; [done|]. exists s0.
    split; [done|]. split; [by constructor|done].
Qed.

(** On a collision-free runtime a value that is, in some reachable state,
    an entry of [owner] is granted to nobody but [owner], the contract,
    and the fundraiser when the value is or was a grand total as well. *)
Lemma contributor_isolation s s1 owner h p :
  CollisionFree → reachable this s → reachable this s1 →
  _encryptedContributions s1 !! owner = Some h ∨
  _encryptedPoints s1 !! owner = Some h →
  (h, p) ∈ acl s →
  p = owner ∨ p = this ∨
  (p = fundraiser (_campaign s) ∧ was_total this s h).
Proof.
  intros free Hr Hr1 Hentry Hin.
  destruct (ownership_invariant s1 free Hr1) as (Hc1 & Hp1 & _).
  destruct (ownership_invariant s free Hr) as (_ & _ & Hg).
  destruct (Hg _ _ Hin) as [?|[Hown|[Hown|?]]]; [by right; left| | |by right; right].
  - destruct Hown as (x & a & (e & pf & Ha) & ->).
    destruct Hentry as [Hl|Hl].
    + destruct (Hc1 _ _ Hl) as (x' & a' & (e' & pf' & Ha') & Heq).
      apply (fheAdd_inj free) in Heq as [_ <-].
      left. by eapply (input_bound free).
    + destruct (Hp1 _ _ Hl) as (x' & a' & (e' & pf' & Ha') & Heq).
      apply (fheAdd_inj free) in Heq as [_ ->].
      by destruct (input_not_computed free _ _ _ _ _ a' POINTS_DIVISOR Ha).
  - destruct Hown as (x & a & (e & pf & Ha) & ->).
    destruct Hentry as [Hl|Hl].
    + destruct (Hc1 _ _ Hl) as (x' & a' & (e' & pf' & Ha') & Heq).
      apply (fheAdd_inj free) in Heq as [_ Heq].
      by destruct (input_not_computed free _ _ _ _ _ a POINTS_DIVISOR Ha').
    + destruct (Hp1 _ _ Hl) as (x' & a' & (e' & pf' & Ha') & Heq).
      apply (fheAdd_inj free) in Heq as [_ Heq].
      apply (fheDiv_inj free) in Heq as <-.
      left. by eapply (input_bound free).
Qed.

(** The first contribution of a campaign: the caller's new entries are the
    very handles of the new grand totals, so the fundraiser's grants on the
    totals are grants on these entries as well. *)
Lemma first_contribution_shares_handles tx s who v amount :
  contribution_of this tx s = Some (who, v, amount) →
  fundraiser (_campaign s) ≠ zero_address →
  _encryptedTotalRaised s = uninitialized →
  _encryptedTotalPoints s = uninitialized →
  _encryptedContributions s !! who = None →
  _encryptedPoints s !! who = None →
  let s' := transact this tx s in
  getEncryptedContribution s' who = _encryptedTotalRaised s' ∧
  getEncryptedPoints s' who = _encryptedTotalPoints s' ∧
  (getEncryptedContribution s' who, fundraiser (_campaign s')) ∈ acl s' ∧
  (getEncryptedPoints s' who, fundraiser (_campaign s')) ∈ acl s'.
Proof.
  intros Hc Hf Htr Htp Hcn Hpn s'.
  destruct (contribution_ledger _ _ _ _ _ Hc) as (Hcs & Hps & Hr & Hp).
  fold s' in Hcs, Hps, Hr, Hp.
  assert (getEncryptedContribution s' who = _encryptedTotalRaised s') as E1.
  { unfold getEncryptedContribution.
    rewrite Hcs, Hr, lookup_total_insert_eq, Htr.
    by destruct (clear_default _ _ Hcn) as [-> _]. }
  assert (getEncryptedPoints s' who = _encryptedTotalPoints s') as E2.
  { unfold getEncryptedPoints.
    rewrite Hps, Hp, lookup_total_insert_eq, Htp.
    by destruct (clear_default _ _ Hpn) as [-> _]. }
  do 2 (split; [done|]).
  assert (fundraiser (_campaign s') = fundraiser (_campaign s)) as ->
    by (by apply fundraiser_fixed).
  pose proof (contribution_grants _ _ _ _ _ Hc Hf) as Hacl. fold s' in Hacl.
  rewrite Hacl, E1, E2. split; set_solver.
Qed.

(** C8.  In a reachable state, an accepted contribution
    issues exactly eight grants: to the contract over the four values it
    wrote, to the caller over the caller's two updated entries, and to the
    fundraiser over the two updated totals.  No transaction removes a
    grant.  On a collision-free runtime the contributors are separated: a
    value that is or was one of a principal's two entries is granted to
    nobody but that principal and the contract, the one exception being
    the fundraiser when the same handle is or was a grand total (it is at
    the first contribution of a campaign: see
    [first_contribution_shares_handles]).  And on every runtime a
    principal other than the contract holds a grant only over a value that
    is or once was one of its own entries, or, for the fundraiser, a grand
    total. *)
Theorem capability_grants s :
  reachable this s →
  (∀ tx who v amount,
     contribution_of this tx s = Some (who, v, amount) →
     let s' := transact this tx s in
     acl s' =
       [(_encryptedTotalPoints s', fundraiser (_campaign s));
        (_encryptedTotalRaised s', fundraiser (_campaign s));
        (_encryptedTotalPoints s', this);
        (_encryptedTotalRaised s', this);
        (getEncryptedPoints s' who, who);
        (getEncryptedPoints s' who, this);
        (getEncryptedContribution s' who, who);
        (getEncryptedContribution s' who, this)] ++ acl s) ∧
  (∀ tx, ∃ new, acl (transact this tx s) = new ++ acl s) ∧
  (∀ tx, contribution_of this tx s = None → acl (transact this tx s) = acl s) ∧
  (CollisionFree →
   ∀ s1 owner h p,
     reachable this s1 → evolves this s1 s →
     _encryptedContributions s1 !! owner = Some h ∨
     _encryptedPoints s1 !! owner = Some h →
     (h, p) ∈ acl s →
     p = owner ∨ p = this ∨
     (p = fundraiser (_campaign s) ∧
      ∃ s0, reachable this s0 ∧ evolves this s0 s ∧
            (h = _encryptedTotalRaised s0 ∨ h = _encryptedTotalPoints s0))) ∧
  (∀ h p, (h, p) ∈ acl s →
     p = this ∨
     ∃ s0, reachable this s0 ∧ evolves this s0 s ∧ entitled s0 h p).
Proof.
  intros Hr.
  split; [|split; [intros tx; apply acl_grows|split; [|split]]].
  - intros tx who v amount Hc.
    apply (contribution_grants _ _ _ _ _ Hc).
    apply contribution_of_Some in Hc as (_ & _ & ea & pf & Hcall & _ & Hcom & _).
    destruct (settlement_invariant s Hr) as (_ & Hact & _).
    apply Hact. destruct Hcom; congruence.
  - intros tx Hc. by apply contribution_of_None in Hc as (_ & _ & _ & _ & _ & ->).
  - intros free s1 owner h p Hr1 _ Hentry Hin.
    by apply (contributor_isolation s s1 owner h p free).
  - by apply grants_entitled.
Qed.

End Properties.

(** * Further properties of the contract *)

Section Lifecycle.
Context `{B : FHEBackend}.
Variable this : address.

(** ** The end state is final *)

Lemma final_rejects tx s :
  fundraiser (_campaign s) ≠ zero_address →
  isActive (_campaign s) = false →
  accepted this tx s = false.
Proof.
  intros Hf Ha. destruct (accepted this tx s) eqn:Hacc; [|done].
  apply accepted_committed in Hacc. destruct Hacc; congruence.
Qed.

Lemma final_run txs s :
  fundraiser (_campaign s) ≠ zero_address →
  isActive (_campaign s) = false →
  run this txs s = s.
Proof.
  intros Hf Ha. induction txs as [|tx txs IH]; simpl; [done|].
  by rewrite (not_accepted_unchanged this tx s (final_rejects tx s Hf Ha)).
Qed.

Lemma endCampaign_Ok env s s1 :
  endCampaign env s = Ok tt s1 →
  msg_sender env = fundraiser (_campaign s) ∧
  isActive (_campaign s) = true ∧ call_succeeds env = true ∧
  s1 = endCampaign_post env s.
Proof.
  rewrite endCampaign_unfold. case_bool_decide as Hf; [done|].
  destruct (isActive (_campaign s)); [simpl|done].
  destruct (call_succeeds env); [|done]. by intros [= <-].
Qed.

(** X1.  Once [endCampaign] has succeeded the state is final: every later
    transaction reverts, whatever it is and whoever sends it, so the state
    never changes again; a second [endCampaign] reverts with
    [Unauthorized] or, for the fundraiser, with [CampaignInactive]. *)
Theorem ended_is_final env s s1 txs :
  msg_sender env ≠ zero_address →
  endCampaign env s = Ok tt s1 →
  run this txs s1 = s1 ∧
  (∀ tx, accepted this tx s1 = false ∧ transact this tx s1 = s1) ∧
  (∀ env',
     (msg_sender env' ≠ msg_sender env →
        endCampaign env' s1 = Revert Unauthorized s1) ∧
     (msg_sender env' = msg_sender env →
        endCampaign env' s1 = Revert CampaignInactive s1)).
Proof.
  intros Hsender Hok.
  apply endCampaign_Ok in Hok as (Hf & Ha & Hcall & ->).
  assert (fundraiser (_campaign (endCampaign_post env s)) ≠ zero_address) as Hf1
    by (simpl; congruence).
  assert (isActive (_campaign (endCampaign_post env s)) = false) as Ha1 by done.
  split; [by apply final_run|]. split.
  - intros tx. pose proof (final_rejects tx _ Hf1 Ha1) as Hrej.
    split; [done|by apply not_accepted_unchanged].
  - intros env'. rewrite endCampaign_unfold. simpl. split.
    + intros Hne. rewrite bool_decide_eq_true_2; [done|congruence].
    + intros Heq. rewrite bool_decide_eq_false_2; [done|]. intros []. congruence.
Qed.

(** ** The configuration is fixed *)

Lemma configuration_step tx s :
  fundraiser (_campaign s) ≠ zero_address →
  name (_campaign (transact this tx s)) = name (_campaign s) ∧
  targetAmount (_campaign (transact this tx s)) = targetAmount (_campaign s) ∧
  endTimestamp (_campaign (transact this tx s)) = endTimestamp (_campaign s) ∧
  fundraiser (_campaign (transact this tx s)) = fundraiser (_campaign s) ∧
  (isActive (_campaign (transact this tx s)) = true →
   isActive (_campaign s) = true).
Proof.
  intros Hf. destruct (transact_cases this tx s) as [->|Hc]; [done|].
  by destruct Hc.
Qed.

(** X2.  Once a campaign exists, no sequence of transactions changes its
    name, target, end timestamp or fundraiser, and none makes an inactive
    campaign active again. *)
Theorem configuration_fixed txs s :
  fundraiser (_campaign s) ≠ zero_address →
  name (_campaign (run this txs s)) = name (_campaign s) ∧
  targetAmount (_campaign (run this txs s)) = targetAmount (_campaign s) ∧
  endTimestamp (_campaign (run this txs s)) = endTimestamp (_campaign s) ∧
  fundraiser (_campaign (run this txs s)) = fundraiser (_campaign s) ∧
  (isActive (_campaign (run this txs s)) = true →
   isActive (_campaign s) = true).
Proof.
  revert s. induction txs as [|tx txs IH]; intros s Hf; simpl; [done|].
  destruct (configuration_step tx s Hf) as (Hn & Ht & He & Hfr & Hact).
  destruct (IH (transact this tx s)) as (Hn' & Ht' & He' & Hfr' & Hact');
    [congruence|].
  rewrite Hn', Ht', He', Hfr'. repeat split; auto.
Qed.

(** ** When a call is accepted *)

Lemma accepted_endCampaign_iff env s :
  accepted this (env, EndCampaign) s = true ↔
    msg_value env = 0 ∧ msg_sender env = fundraiser (_campaign s) ∧
    isActive (_campaign s) = true ∧ call_succeeds env = true.
Proof.
  split.
  - intros Hacc. apply accepted_committed in Hacc.
    inversion Hacc as [? ? ? [=] | ? ? ? [=] | _ Hv Hs Ha Hc]. done.
  - intros (Hv & Hs & Ha & Hc). unfold accepted.
    rewrite dispatch_endCampaign, endCampaign_unfold, Hv, Ha, Hc. simpl.
    by rewrite bool_decide_eq_false_2 by (by intros []).
Qed.

Lemma accepted_contribute_iff env ea pf s :
  accepted this (env, Contribute ea pf) s = true ↔
    isActive (_campaign s) = true ∧
    block_timestamp env < endTimestamp (_campaign s) ∧
    msg_value env ≠ 0 ∧
    is_Some (verifyInput ea pf (msg_sender env) this) ∧
    totalRaised s + msg_value env ≤ uint256_max.
Proof.
  split.
  - intros Hacc. apply accepted_committed in Hacc.
    inversion Hacc as [? ? ? [=] | ea' pf' a [= <- <-] Ha Hts Hv Hin Hle | [=]].
    simpl in *. eauto 6.
  - intros (Ha & Hts & Hv & [a Hin] & Hle). unfold accepted.
    rewrite dispatch_contribute, contribute_unfold. simpl.
    apply N.leb_gt in Hts. apply N.eqb_neq in Hv.
    rewrite Ha, Hts, Hv, Hin. simpl. by rewrite decide_True.
Qed.

(** X3.  Only the fundraiser's own [endCampaign] closes a campaign: if a
    transaction turns an active campaign inactive, it is an [endCampaign]
    sent by the fundraiser whose transfer was accepted.  And that call is
    accepted exactly when no value is attached, the caller is the
    fundraiser, the campaign is active and the transfer succeeds: neither
    the deadline, nor the target, nor the amount raised plays a part. *)
Theorem only_fundraiser_closes env s :
  (∀ tx, isActive (_campaign s) = true →
         isActive (_campaign (transact this tx s)) = false →
         tx.2 = EndCampaign ∧ msg_sender tx.1 = fundraiser (_campaign s) ∧
         call_succeeds tx.1 = true) ∧
  (accepted this (env, EndCampaign) s = true ↔
     msg_value env = 0 ∧ msg_sender env = fundraiser (_campaign s) ∧
     isActive (_campaign s) = true ∧ call_succeeds env = true).
Proof.
  split.
  - intros tx Ha Ha'. destruct (transact_cases this tx s) as [Heq|Hc];
      [congruence|].
    destruct Hc; simpl in Ha'; [done|congruence|done].
  - apply accepted_endCampaign_iff.
Qed.

(** X4.  Until a campaign is created nothing has been written: in a
    reachable state without a fundraiser every storage variable has the
    value it had at deployment (the campaign record is empty, the plaintext
    total is zero, the encrypted totals are uninitialized, both mappings
    are empty), no grant has been issued, no event logged and no transfer
    made.  The balance is not part of this: the address can hold value
    before any call.  A reachable state with a fundraiser has a non-empty
    name, a non-zero target and a non-zero end timestamp, and an active
    campaign always has a fundraiser. *)
Theorem campaign_wellformed s :
  reachable this s →
  (fundraiser (_campaign s) = zero_address →
     _campaign s = empty_campaign ∧ totalRaised s = 0 ∧
     _encryptedTotalRaised s = uninitialized ∧
     _encryptedTotalPoints s = uninitialized ∧
     _encryptedContributions s = ∅ ∧ _encryptedPoints s = ∅ ∧
     acl s = [] ∧ events s = [] ∧ sent s = []) ∧
  (fundraiser (_campaign s) ≠ zero_address →
     name (_campaign s) ≠ "" ∧ targetAmount (_campaign s) ≠ 0 ∧
     0 < endTimestamp (_campaign s)) ∧
  (isActive (_campaign s) = true → fundraiser (_campaign s) ≠ zero_address).
Proof.
  intros Hr. pose proof (settlement_invariant this s Hr) as (Hinit & Hact & _).
  split; [exact Hinit|]. split; [|by intros Ha; destruct (Hact Ha)].
  clear Hinit Hact.
  induction Hr as [|tx s Hr IH Hsender|v s Hr IH]; [done| |exact IH].
  destruct (transact_cases this tx s) as [->|Hc]; [done|].
  destruct Hc as [nm tg ts Hcall Hv Hf Hnm Htg Hts | |]; simpl; [|done..].
  intros _. rewrite <- length_zero_empty. repeat split; [done..|lia].
Qed.

(** X5.  A [contribute] transaction is accepted exactly when the campaign
    is active, the block timestamp is strictly before [endTimestamp], some
    value is attached, the input proof validates for the caller and this
    contract, and the new total fits in a [uint256].  The target, the
    amount already raised and the identity of the caller play no part.
    An accepted contribution adds the attached value to the balance and to
    [totalRaised], logs one [ContributionReceived] event for the caller
    and that value, and leaves the campaign record and the transfers made
    as they were. *)
Theorem contribute_accepted_iff env ea pf s :
  (accepted this (env, Contribute ea pf) s = true ↔
     isActive (_campaign s) = true ∧
     block_timestamp env < endTimestamp (_campaign s) ∧
     msg_value env ≠ 0 ∧
     is_Some (verifyInput ea pf (msg_sender env) this) ∧
     totalRaised s + msg_value env ≤ uint256_max) ∧
  (accepted this (env, Contribute ea pf) s = true →
     let s' := transact this (env, Contribute ea pf) s in
     balance s' = balance s + msg_value env ∧
     totalRaised s' = totalRaised s + msg_value env ∧
     _campaign s' = _campaign s ∧ sent s' = sent s ∧
     events s' = ContributionReceived (msg_sender env) (msg_value env) :: events s).
Proof.
  split; [apply accepted_contribute_iff|].
  intros Hacc s'. unfold s'. apply accepted_committed in Hacc.
  remember (transact this (env, Contribute ea pf) s) as post eqn:Hpost.
  clear Hpost.
  inversion Hacc as [? ? ? [=] | ea' pf' a [= <- <-] Ha Hts Hv Hin Hle | [=]].
  by simpl.
Qed.

End Lifecycle.

Section Accounting.
Context `{B : FHEBackend}.
Variable this : address.

(** ** Events and funds *)

Lemma accounting_invariant s :
  reachable this s →
  logged_contributions (events s) = totalRaised s ∧
  count_created (events s)
    = (if decide (fundraiser (_campaign s) = zero_address) then 0 else 1)%nat ∧
  count_ended (events s) = length (sent s) ∧
  totalRaised s ≤ balance s + sum_sent (sent s) ∧
  (fundraiser (_campaign s) ≠ zero_address →
   isActive (_campaign s) = false →
   ∃ amount endedAt older,
     totalRaised s ≤ amount ∧
     sent s = [(fundraiser (_campaign s), amount)] ∧
     events s = CampaignEnded (fundraiser (_campaign s)) amount endedAt
                  :: older).
Proof.
  induction 1 as [|tx s Hr IH Hsender|v s Hr IH].
  - do 3 (split; [done|]). split; [simpl; lia|done].
  - destruct IH as (Hlog & Hcr & Hen & Hbal & Hfin).
    destruct (settlement_invariant this s Hr) as (Hinit & Hact & _).
    destruct (transact_cases this tx s) as [->|Hc]; [done|].
    destruct Hc as [nm tg ts Hcall Hv Hf Hnm Htg Hts
                   | ea pf amount Hcall Ha Hts Hv Hin Hle
                   | Hcall Hv Hsnd Ha Hok].
    + destruct (Hinit Hf) as (_ & Htot & _ & _ & _ & _ & _ & Hev & Hsent).
      simpl. rewrite Hev, Hsent, Htot. simpl. rewrite decide_False by done.
      do 3 (split; [done|]). split; [lia|done].
    + destruct (Hact Ha) as (Hf & _). simpl.
      split; [lia|]. do 2 (split; [done|]). split; [lia|]. congruence.
    + destruct (Hact Ha) as (Hf & Hsent & Hb). simpl.
      rewrite Hsent in *. simpl in *.
      do 2 (split; [done|]). split; [by rewrite Hen|]. split; [lia|].
      intros _ _. exists (balance s), (block_timestamp tx.1), (events s).
      by split.
  - destruct IH as (Hlog & Hcr & Hen & Hbal & Hfin). simpl.
    do 3 (split; [done|]). split; [lia|done].
Qed.

(** X6.  The event log accounts for the public total: in every reachable
    state the amounts of the [ContributionReceived] events add up to
    [totalRaised]; there is one [CampaignCreated] event exactly when a
    campaign exists; and there is one [CampaignEnded] event exactly when
    the campaign has been ended, none otherwise. *)
Theorem event_log_accounting s :
  reachable this s →
  logged_contributions (events s) = totalRaised s ∧
  (fundraiser (_campaign s) = zero_address → count_created (events s) = 0%nat) ∧
  (fundraiser (_campaign s) ≠ zero_address → count_created (events s) = 1%nat) ∧
  (isActive (_campaign s) = true → count_ended (events s) = 0%nat) ∧
  (fundraiser (_campaign s) = zero_address → count_ended (events s) = 0%nat) ∧
  (fundraiser (_campaign s) ≠ zero_address → isActive (_campaign s) = false →
     count_ended (events s) = 1%nat).
Proof.
  intros Hr. destruct (accounting_invariant s Hr) as (Hlog & Hcr & Hen & _ & Hfin).
  destruct (settlement_invariant this s Hr) as (Hinit & Hact & _).
  split; [done|]. rewrite Hcr, Hen. repeat split.
  - intros Hf. by rewrite decide_True.
  - intros Hf. by rewrite decide_False.
  - intros Ha. by destruct (Hact Ha) as (_ & -> & _).
  - intros Hf. by destruct (Hinit Hf) as (_ & _ & _ & _ & _ & _ & _ & _ & ->).
  - intros Hf Ha. by destruct (Hfin Hf Ha) as (? & ? & ? & _ & -> & _).
Qed.


(** ** Who may read what *)

(** Find a grant in an allow-list given by its most recent entries. *)
Ltac find_grant :=
  solve [repeat first [apply list_elem_of_here | assumption
                      | apply list_elem_of_further]].

Lemma stored_values_granted s :
  reachable this s →
  (∀ who h, _encryptedContributions s !! who = Some h →
     (h, who) ∈ acl s ∧ (h, this) ∈ acl s) ∧
  (∀ who h, _encryptedPoints s !! who = Some h →
     (h, who) ∈ acl s ∧ (h, this) ∈ acl s) ∧
  (_encryptedTotalRaised s ≠ uninitialized →
     (_encryptedTotalRaised s, fundraiser (_campaign s)) ∈ acl s ∧
     (_encryptedTotalRaised s, this) ∈ acl s) ∧
  (_encryptedTotalPoints s ≠ uninitialized →
     (_encryptedTotalPoints s, fundraiser (_campaign s)) ∈ acl s ∧
     (_encryptedTotalPoints s, this) ∈ acl s).
Proof.
  induction 1 as [|tx s Hr IH Hsender|v s Hr IH]; [by repeat split| |exact IH].
  destruct IH as (Hc & Hp & Htr & Htp).
  destruct (settlement_invariant this s Hr) as (Hinit & Hact & _).
  destruct (transact_cases this tx s) as [->|Hcom]; [done|].
  destruct Hcom as [nm tg ts Hcall Hv Hf Hnm Htg Hts
                   | ea pf amount Hcall Ha Hts Hv Hin Hle
                   | Hcall Hv Hsnd Ha Hok].
  - destruct (Hinit Hf) as (_ & _ & Hr0 & Hp0 & Hcm & Hpm & _). simpl.
    rewrite Hr0, Hp0, Hcm, Hpm.
    split; [|split; [|by split]];
      intros who h Hl; by rewrite lookup_empty in Hl.
  - destruct (Hact Ha) as (Hf & _). simpl.
    rewrite bool_decide_eq_true_2 by done. simpl.
    split; [|split; [|split]].
    + intros who h. destruct (decide (msg_sender tx.1 = who)) as [<-|Hne].
      * rewrite lookup_insert_eq. intros [= <-]. split; find_grant.
      * rewrite lookup_insert_ne by done. intros Hl.
        destruct (Hc _ _ Hl). split; find_grant.
    + intros who h. destruct (decide (msg_sender tx.1 = who)) as [<-|Hne].
      * rewrite lookup_insert_eq. intros [= <-]. split; find_grant.
      * rewrite lookup_insert_ne by done. intros Hl.
        destruct (Hp _ _ Hl). split; find_grant.
    + intros _. split; find_grant.
    + intros _. split; find_grant.
  - by simpl.
Qed.

Lemma acl_grows_run txs s h p :
  (h, p) ∈ acl s → (h, p) ∈ acl (run this txs s).
Proof.
  revert s. induction txs as [|tx txs IH]; intros s Hin; simpl; [done|].
  apply IH. destruct (acl_grows this tx s) as [new ->].
  apply elem_of_app. by right.
Qed.

(** X8.  Every stored ciphertext is readable by those meant to read it: in
    every reachable state each contributor holds a grant over their
    current contribution and points entries, the contract holds a grant
    over every entry and over both totals (so that it can compute on them
    in the next call), and the fundraiser holds a grant over both totals
    as soon as they are initialized.  A grant, once held, is held in every
    later state: a contributor keeps access to every past value of their
    entries, also after the campaign has ended. *)
Theorem current_values_granted s :
  reachable this s →
  (∀ who h, _encryptedContributions s !! who = Some h →
     (h, who) ∈ acl s ∧ (h, this) ∈ acl s) ∧
  (∀ who h, _encryptedPoints s !! who = Some h →
     (h, who) ∈ acl s ∧ (h, this) ∈ acl s) ∧
  (_encryptedTotalRaised s ≠ uninitialized →
     (_encryptedTotalRaised s, fundraiser (_campaign s)) ∈ acl s ∧
     (_encryptedTotalRaised s, this) ∈ acl s) ∧
  (_encryptedTotalPoints s ≠ uninitialized →
     (_encryptedTotalPoints s, fundraiser (_campaign s)) ∈ acl s ∧
     (_encryptedTotalPoints s, this) ∈ acl s) ∧
  (∀ txs who h,
     _encryptedContributions s !! who = Some h ∨
     _encryptedPoints s !! who = Some h →
     (h, who) ∈ acl (run this txs s)).
Proof.
  intros Hr. destruct (stored_values_granted s Hr) as (Hc & Hp & Hr' & Ht).
  do 4 (split; [done|]).
  intros txs who h [Hl|Hl]; apply acl_grows_run.
  - by destruct (Hc _ _ Hl).
  - by destruct (Hp _ _ Hl).
Qed.

End Accounting.

Section Balances.
Context `{B : FHEBackend}.
Variable this : address.

(** ** What each contributor's entries hold *)

Lemma mod_add_mod (x y z : N) :
  ((x + y) mod euint128_modulus + z) mod euint128_modulus
    = (x + (y + z)) mod euint128_modulus.
Proof. rewrite N.Div0.add_mod_idemp_l. f_equal. lia. Qed.

Lemma mod_bound (x : N) :
  x < euint128_modulus → x = (x + 0) mod euint128_modulus.
Proof. intros Hx. by rewrite N.add_0_r, N.mod_small. Qed.

Lemma entries_run txs s who :
  clear (getEncryptedContribution (run this txs s) who)
    = (clear (getEncryptedContribution s who) + amounts_of who (ledger this txs s))
        mod euint128_modulus ∧
  clear (getEncryptedPoints (run this txs s) who)
    = (clear (getEncryptedPoints s who) + points_of who (ledger this txs s))
        mod euint128_modulus ∧
  clear (_encryptedTotalPoints (run this txs s))
    = (clear (_encryptedTotalPoints s) + sum_points (ledger this txs s))
        mod euint128_modulus.
Proof.
  revert s. induction txs as [|tx txs IH]; intros s; simpl.
  - repeat split; apply mod_bound, clear_bound.
  - destruct (IH (transact this tx s)) as (IHc & IHp & IHt).
    rewrite IHc, IHp, IHt. clear IHc IHp IHt.
    unfold getEncryptedContribution, getEncryptedPoints.
    destruct (contribution_of this tx s) as [[[w v] amount]|] eqn:Hc.
    + destruct (contribution_ledger this _ _ _ _ _ Hc) as (-> & -> & _ & ->).
      simpl. rewrite clear_FHE_add, clear_FHE_div by done.
      destruct (decide (w = who)) as [->|Hne].
      * rewrite !lookup_total_insert_eq, !clear_FHE_add, clear_FHE_div by done.
        by rewrite !mod_add_mod.
      * rewrite !lookup_total_insert_ne by done. by rewrite mod_add_mod.
    + by apply contribution_of_None in Hc as (_ & _ & -> & -> & -> & _).
Qed.


(** X9.  From deployment, after any sequence of transactions a
    contributor's contribution entry decrypts to the sum of the amounts
    that contributor encrypted in their accepted contributions, their
    points entry to the sum of the quotients of these amounts by
    [POINTS_DIVISOR], and the total points to the sum of the quotients
    over all accepted contributions (all modulo [2^128]).  A principal
    none of whose contributions was accepted reads zero. *)
Theorem entries_are_own_sums txs who :
  let s := run this txs initial_state in
  let l := ledger this txs initial_state in
  clear (getEncryptedContribution s who) = amounts_of who l mod euint128_modulus ∧
  clear (getEncryptedPoints s who) = points_of who l mod euint128_modulus ∧
  clear (_encryptedTotalPoints s) = sum_points l mod euint128_modulus ∧
  (Forall (λ c, c.1.1 ≠ who) l →
     clear (getEncryptedContribution s who) = 0 ∧
     clear (getEncryptedPoints s who) = 0).
Proof.
  intros s l. destruct (entries_run txs initial_state who) as (Hc & Hp & Ht).
  fold s l in Hc, Hp, Ht.
  unfold getEncryptedContribution, getEncryptedPoints in Hc, Hp. simpl in Hc, Hp, Ht.
  rewrite lookup_total_empty in Hc, Hp. simpl in Hc, Hp.
  rewrite clear_uninitialized, N.add_0_l in Hc, Hp, Ht.
  change (getEncryptedContribution s who) with (_encryptedContributions s !!! who).
  change (getEncryptedPoints s who) with (_encryptedPoints s !!! who).
  split; [exact Hc|]. split; [exact Hp|]. split; [exact Ht|]. intros Hnone.
  assert (amounts_of who l = 0 ∧ points_of who l = 0) as [Ha Hq].
  { clear Hc Hp Ht. induction Hnone as [|c l' Hne _ IH]; simpl; [done|].
    rewrite !decide_False by done. exact IH. }
  by rewrite Hc, Hp, Ha, Hq.
Qed.

(** ** Zero handles *)

Lemma ledger_started s :
  reachable this s →
  (∀ who h, _encryptedContributions s !! who = Some h → h ≠ uninitialized) ∧
  (∀ who h, _encryptedPoints s !! who = Some h → h ≠ uninitialized) ∧
  (∀ who, is_Some (_encryptedContributions s !! who) ↔
          is_Some (_encryptedPoints s !! who)) ∧
  ((totalRaised s = 0 ∧ _encryptedTotalRaised s = uninitialized ∧
    _encryptedTotalPoints s = uninitialized ∧
    _encryptedContributions s = ∅ ∧ _encryptedPoints s = ∅) ∨
   (totalRaised s ≠ 0 ∧ _encryptedTotalRaised s ≠ uninitialized ∧
    _encryptedTotalPoints s ≠ uninitialized)).
Proof.
  induction 1 as [|tx s Hr IH Hsender|v s Hr IH]; [| |exact IH].
  - simpl. repeat split; try done. by left.
  - destruct IH as (Hc & Hp & Hdom & Hcase).
    destruct (contribution_of this tx s) as [[[w v] amount]|] eqn:Hco.
    + destruct (contribution_ledger this _ _ _ _ _ Hco) as (-> & -> & -> & ->).
      assert (totalRaised (transact this tx s) ≠ 0) as Hpos.
      { apply contribution_of_Some in Hco
          as (_ & _ & ea & pf & Hcall & _ & Hcom & Heq).
        rewrite Heq. simpl.
        destruct Hcom as [? ? ? Hother | ? ? ? _ _ _ Hv _ _ | Hother];
          [congruence|lia|congruence]. }
      split; [|split; [|split]].
      * intros who h. destruct (decide (w = who)) as [->|Hne].
        -- rewrite lookup_insert_eq. intros [= <-]. apply FHE_add_initialized.
        -- rewrite lookup_insert_ne by done. apply Hc.
      * intros who h. destruct (decide (w = who)) as [->|Hne].
        -- rewrite lookup_insert_eq. intros [= <-]. apply FHE_add_initialized.
        -- rewrite lookup_insert_ne by done. apply Hp.
      * intros who. destruct (decide (w = who)) as [->|Hne].
        -- rewrite !lookup_insert_eq. split; eauto.
        -- rewrite !lookup_insert_ne by done. apply Hdom.
      * right. split; [done|]. split; apply FHE_add_initialized.
    + apply contribution_of_None in Hco as (-> & -> & -> & -> & -> & _). done.
Qed.

(** Stored entries are never the zero handle, from any state in which
    none is. *)
Lemma entries_initialized_run txs s :
  (∀ who h, _encryptedContributions s !! who = Some h → h ≠ uninitialized) ∧
  (∀ who h, _encryptedPoints s !! who = Some h → h ≠ uninitialized) →
  (∀ who h, _encryptedContributions (run this txs s) !! who = Some h →
     h ≠ uninitialized) ∧
  (∀ who h, _encryptedPoints (run this txs s) !! who = Some h →
     h ≠ uninitialized).
Proof.
  revert s. induction txs as [|tx txs IH]; intros s [Hc Hp]; simpl; [done|].
  apply IH.
  destruct (contribution_of this tx s) as [[[w v] amount]|] eqn:Hco.
  - destruct (contribution_ledger this _ _ _ _ _ Hco) as (-> & -> & _).
    split; intros who h; (destruct (decide (w = who)) as [->|Hne];
      [rewrite lookup_insert_eq; intros [= <-]; apply FHE_add_initialized
      |rewrite lookup_insert_ne by done; first [apply Hc | apply Hp]]).
  - by apply contribution_of_None in Hco as (_ & _ & _ & -> & -> & _).
Qed.

(** A principal has no entry after a run exactly when it had none before
    and none of the accepted contributions of the run is its own. *)
Lemma entry_absent_run txs s who :
  (_encryptedContributions (run this txs s) !! who = None ↔
     _encryptedContributions s !! who = None ∧
     Forall (λ c : address * N * euint128, c.1.1 ≠ who) (ledger this txs s)) ∧
  (_encryptedPoints (run this txs s) !! who = None ↔
     _encryptedPoints s !! who = None ∧
     Forall (λ c : address * N * euint128, c.1.1 ≠ who) (ledger this txs s)).
Proof.
  revert s. induction txs as [|tx txs IH]; intros s; simpl.
  - split; (split; [intros ?; by split | by intros [? _]]).
  - destruct (IH (transact this tx s)) as [IHc IHp]. rewrite IHc, IHp.
    destruct (contribution_of this tx s) as [[[w v] a]|] eqn:Hc.
    + destruct (contribution_ledger this _ _ _ _ _ Hc) as (-> & -> & _).
      rewrite Forall_cons_iff. simpl.
      destruct (decide (w = who)) as [->|Hne].
      * rewrite !lookup_insert_eq.
        split; (split; [by intros [[=] _] | by intros (_ & ? & _)]).
      * rewrite !lookup_insert_ne by done.
        split; (split; [by intros [? ?] | by intros (? & _ & ?)]).
    + by apply contribution_of_None in Hc as (_ & _ & _ & -> & -> & _).
Qed.

(** The totals are the zero handle after a run exactly when they were
    before and the run has no accepted contribution. *)
Lemma totals_started_run txs s :
  (_encryptedTotalRaised (run this txs s) = uninitialized ↔
     _encryptedTotalRaised s = uninitialized ∧ ledger this txs s = []) ∧
  (_encryptedTotalPoints (run this txs s) = uninitialized ↔
     _encryptedTotalPoints s = uninitialized ∧ ledger this txs s = []).
Proof.
  revert s. induction txs as [|tx txs IH]; intros s; simpl.
  - split; (split; [intros ?; by split | by intros [? _]]).
  - destruct (IH (transact this tx s)) as [IHr IHp]. rewrite IHr, IHp.
    destruct (contribution_of this tx s) as [[[w v] a]|] eqn:Hc.
    + destruct (contribution_ledger this _ _ _ _ _ Hc) as (_ & _ & -> & ->).
      split; (split; [intros [Hz _]; by apply FHE_add_initialized in Hz
                     | by intros [_ ?]]).
    + by apply contribution_of_None in Hc as (_ & -> & -> & _).
Qed.

(** Every accepted contribution carries value. *)
Lemma ledger_values_positive txs s :
  Forall (λ c : address * N * euint128, c.1.2 ≠ 0) (ledger this txs s).
Proof.
  revert s. induction txs as [|tx txs IH]; intros s; simpl; [constructor|].
  destruct (contribution_of this tx s) as [[[w v] a]|] eqn:Hc; [|apply IH].
  constructor; [|apply IH]. simpl.
  apply contribution_of_Some in Hc as (_ & -> & ea & pf & Hcall & _ & Hcom & _).
  destruct Hcom as [? ? ? Hother | ? ? ? _ _ _ Hv _ _ | Hother];
    [congruence|done|congruence].
Qed.

Lemma sum_values_zero (l : list (address * N * euint128)) :
  Forall (λ c, c.1.2 ≠ 0) l → sum_values l = 0 ↔ l = [].
Proof.
  intros Hpos. destruct Hpos as [|c l Hc _]; simpl; [done|].
  split; [lia|done].
Qed.

(** X10.  The getters return the zero handle exactly when there is nothing
    to decrypt.  From deployment, after any sequence of transactions,
    [getEncryptedContribution] and [getEncryptedPoints] return the
    uninitialized handle for a principal exactly when none of the accepted
    contributions was sent by that principal, and [getEncryptedTotals]
    returns uninitialized handles exactly when no contribution has been
    accepted at all, that is, exactly when [totalRaised] is zero. *)
Theorem zero_handles txs who :
  let s := run this txs initial_state in
  let l := ledger this txs initial_state in
  (getEncryptedContribution s who = uninitialized ↔
     Forall (λ c, c.1.1 ≠ who) l) ∧
  (getEncryptedPoints s who = uninitialized ↔
     Forall (λ c, c.1.1 ≠ who) l) ∧
  ((getEncryptedTotals s).1 = uninitialized ↔ l = []) ∧
  ((getEncryptedTotals s).2 = uninitialized ↔ l = []) ∧
  (l = [] ↔ totalRaised s = 0).
Proof.
  intros s l.
  destruct (entries_initialized_run txs initial_state) as [Hc Hp];
    [split; intros w h Hl; simpl in Hl; by rewrite lookup_empty in Hl|].
  destruct (entry_absent_run txs initial_state who) as [Ac Ap].
  destruct (totals_started_run txs initial_state) as [Tr Tp].
  fold s in Hc, Hp, Ac, Ap, Tr, Tp. fold l in Ac, Ap, Tr, Tp.
  simpl in Ac, Ap, Tr, Tp. rewrite lookup_empty in Ac, Ap.
  assert (∀ (m : gmap address euint128),
            (∀ w h, m !! w = Some h → h ≠ uninitialized) →
            m !!! who = uninitialized ↔ m !! who = None) as Hget.
  { intros m Hm. rewrite lookup_total_alt.
    destruct (m !! who) as [h|] eqn:Hl; simpl; [|done].
    split; [intros ->; by destruct (Hm _ _ Hl)|done]. }
  unfold getEncryptedContribution, getEncryptedPoints, getEncryptedTotals.
  split; [rewrite (Hget _ Hc), Ac; by split; [intros []|]|].
  split; [rewrite (Hget _ Hp), Ap; by split; [intros []|]|].
  split; [simpl; rewrite Tr; by split; [intros []|]|].
  split; [simpl; rewrite Tp; by split; [intros []|]|].
  unfold s. rewrite totalRaised_run. simpl. fold l.
  rewrite (sum_values_zero l) by apply ledger_values_positive. done.
Qed.

End Balances.

(** * Properties of the client *)

Section ClientView.
Context `{B : FHEBackend}.
Variable this : address.

(** ** Numbers *)

Lemma Number_small n : n < 2 ^ 53 → Frontend.Number n = n.
Proof.
  intros Hn. unfold Frontend.Number.
  by rewrite (proj2 (N.ltb_lt n (2 ^ 53)) Hn).
Qed.

Lemma Number_large n : 2 ^ 53 ≤ n → 2 ^ 53 ≤ Frontend.Number n.
Proof.
  intros Hn. unfold Frontend.Number.
  rewrite (proj2 (N.ltb_ge n (2 ^ 53)) Hn).
  assert (0 < n) as Hpos by (eapply N.lt_le_trans; [|exact Hn]; done).
  assert (53 ≤ N.log2 n) as Hlog by (by apply N.log2_le_pow2).
  set (k := N.log2 n - 52).
  assert (N.log2 n = 52 + k) as Hk by (unfold k; lia).
  assert (2 ^ 52 * 2 ^ k ≤ n) as Hlow.
  { rewrite <- N.pow_add_r, <- Hk. by apply N.log2_spec. }
  assert (2 ^ k ≠ 0) as Hnz by (by apply N.pow_nonzero).
  assert (2 ^ 52 ≤ n / 2 ^ k) as Hq.
  { apply N.div_le_lower_bound; [done|]. by rewrite N.mul_comm. }
  assert (2 ≤ 2 ^ k) as Htwo.
  { change 2 with (2 ^ 1) at 1. apply N.pow_le_mono_r; [done|unfold k; lia]. }
  assert (2 ^ 53 ≤ n / 2 ^ k * 2 ^ k) as Hgoal.
  { change (2 ^ 53) with (2 ^ 52 * 2).
    apply N.mul_le_mono; done. }
  assert (n / 2 ^ k * 2 ^ k ≤ (n / 2 ^ k + 1) * 2 ^ k) as Hup
    by (apply N.mul_le_mono_r; lia).
  repeat match goal with |- context [if ?c then _ else _] => destruct c end;
    try exact Hgoal; by etrans.
Qed.

(** For a clock below [2^53], comparing with [Number(endTimestamp)] is
    comparing with [endTimestamp]. *)
Lemma ended_exact endTs now :
  now < 2 ^ 53 → (Frontend.Number endTs <=? now) = (endTs <=? now).
Proof.
  intros Hnow. destruct (decide (endTs < 2 ^ 53)) as [Hs|Hl].
  - by rewrite Number_small.
  - apply N.nlt_ge in Hl. pose proof (Number_large _ Hl).
    rewrite (proj2 (N.leb_gt _ _)) by (by eapply N.lt_le_trans).
    symmetry. apply N.leb_gt. by eapply N.lt_le_trans.
Qed.

(** ** The status label *)

Lemma status_label s computedAt :
  computedAt < 2 ^ 53 →
  Frontend.label
    (Frontend.campaignStatus (Some (Frontend.loadCampaign s)) computedAt) =
    if fundraiser (_campaign s) =? zero_address then "Not created"
    else if negb (isActive (_campaign s))
            || (endTimestamp (_campaign s) <=? computedAt)
    then "Closed" else "Open".
Proof.
  intros Hnow. unfold Frontend.campaignStatus, Frontend.hasCampaign,
    Frontend.loadCampaign, getCampaignInfo. simpl.
  rewrite ended_exact by done.
  destruct (fundraiser (_campaign s) =? zero_address); [done|]. simpl.
  by destruct (negb (isActive (_campaign s))
               || (endTimestamp (_campaign s) <=? computedAt)).
Qed.

(** The label of a page loaded from a reachable state. *)
Lemma status_cases s loadedAt :
  reachable this s → loadedAt < 2 ^ 53 →
  let label :=
    Frontend.label
      (Frontend.campaignStatus (Some (Frontend.loadCampaign s)) loadedAt) in
  (label = "Not created" ↔ fundraiser (_campaign s) = zero_address) ∧
  (label = "Open" ↔
     isActive (_campaign s) = true ∧ loadedAt < endTimestamp (_campaign s)) ∧
  (label = "Closed" ↔
     fundraiser (_campaign s) ≠ zero_address ∧
     (isActive (_campaign s) = false ∨ endTimestamp (_campaign s) ≤ loadedAt)).
Proof.
  intros Hr Hnow label. unfold label. rewrite status_label by done.
  destruct (settlement_invariant this s Hr) as (_ & Hact & _).
  destruct (N.eqb_spec (fundraiser (_campaign s)) zero_address) as [Hf|Hf];
    destruct (isActive (_campaign s)) eqn:Ha; simpl;
    try (destruct (Hact eq_refl) as (? & _); done);
    try destruct (N.leb_spec (endTimestamp (_campaign s)) loadedAt) as [Hts|Hts];
    repeat split; intros; try done; try lia;
    repeat match goal with
           | H : _ ∧ _ |- _ => destruct H
           | H : _ ∨ _ |- _ => destruct H
           end; try done; try lia; auto.
Qed.

(** X11.  What the status label says about [contribute].  The label is
    memoized: a page whose last load read the state [s] at clock
    [loadedAt] (below [2^53]) shows, at every later clock [now], the label
    computed at [loadedAt].  That label is "Not created" exactly when no
    campaign exists, and "Open" exactly when the campaign was active and
    [loadedAt] was strictly before the end timestamp.  "Closed" is
    definitive: no [contribute] included at or after [loadedAt] is
    accepted, whatever was called since the load.  "Open" is not: it
    stays on the page past the deadline, where [contribute] reverts with
    [CampaignAlreadyEnded]; in the state that was loaded a contribution
    with value attached, a valid proof and a total that fits is accepted
    exactly while the block timestamp is before the end timestamp. *)
Theorem status_matches_contract s loadedAt now :
  reachable this s → loadedAt < 2 ^ 53 →
  let page := Frontend.afterLoad (Some (Frontend.loadCampaign s)) loadedAt in
  let label := Frontend.label (Frontend.renderedStatus page now) in
  (label = "Not created" ↔ fundraiser (_campaign s) = zero_address) ∧
  (label = "Open" ↔
     isActive (_campaign s) = true ∧ loadedAt < endTimestamp (_campaign s)) ∧
  (label = "Closed" →
     ∀ txs env ea pf,
       loadedAt ≤ block_timestamp env →
       accepted this (env, Contribute ea pf) (run this txs s) = false) ∧
  (label = "Open" →
     ∀ env ea pf,
       (endTimestamp (_campaign s) ≤ block_timestamp env →
          contribute this env ea pf s = Revert CampaignAlreadyEnded s ∧
          accepted this (env, Contribute ea pf) s = false) ∧
       (msg_value env ≠ 0 →
        is_Some (verifyInput ea pf (msg_sender env) this) →
        totalRaised s + msg_value env ≤ uint256_max →
          accepted this (env, Contribute ea pf) s = true ↔
          block_timestamp env < endTimestamp (_campaign s))).
Proof.
  intros Hr Hnow page label.
  destruct (status_cases s loadedAt Hr Hnow) as (Hnone & Hopen & Hclosed).
  change (Frontend.label
            (Frontend.campaignStatus (Some (Frontend.loadCampaign s)) loadedAt))
    with label in Hnone, Hopen, Hclosed.
  do 2 (split; [done|]). split.
  - intros Hl txs env ea pf Hts. apply Hclosed in Hl as [Hf Hwhy].
    destruct (configuration_fixed this txs s Hf) as (_ & _ & He & _ & Hact).
    destruct (accepted this (env, Contribute ea pf) (run this txs s)) eqn:Hacc;
      [|done].
    apply accepted_contribute_iff in Hacc as (Ha & Hlt & _).
    rewrite He in Hlt. destruct Hwhy as [Hoff|Hlate]; [|lia].
    specialize (Hact Ha). congruence.
  - intros Hl env ea pf. apply Hopen in Hl as [Ha Hlt]. split.
    + intros Hts. split.
      * rewrite contribute_unfold, Ha. simpl.
        by rewrite (proj2 (N.leb_le _ _) Hts).
      * destruct (accepted this (env, Contribute ea pf) s) eqn:Hacc; [|done].
        apply accepted_contribute_iff in Hacc as (_ & ? & _). lia.
    + intros Hv Hin Hle. rewrite accepted_contribute_iff. by intuition.
Qed.

(** X12.  The "End campaign & withdraw" button.  It is rendered on the
    memoized status: a page whose last load read the state [s] at clock
    [loadedAt] shows it to an account, at every later clock, exactly when
    that account is the fundraiser, the campaign was active and [loadedAt]
    was strictly before the end timestamp.  When the button is shown, an
    [endCampaign] from that account is accepted in the loaded state (no
    value attached, transfer accepted), at any block timestamp.  A page
    loaded at or after the end timestamp of an active campaign shows the
    button to nobody, although the contract accepts the fundraiser's
    [endCampaign]. *)
Theorem end_button s account loadedAt now env :
  reachable this s → loadedAt < 2 ^ 53 →
  msg_value env = 0 → call_succeeds env = true →
  let info := Some (Frontend.loadCampaign s) in
  let page := Frontend.afterLoad info loadedAt in
  let shown :=
    Frontend.endButtonShown info (Some account)
      (Frontend.renderedStatus page now) in
  (shown = true ↔
     account = fundraiser (_campaign s) ∧ isActive (_campaign s) = true ∧
     loadedAt < endTimestamp (_campaign s)) ∧
  (shown = true → msg_sender env = account →
     accepted this (env, EndCampaign) s = true) ∧
  (isActive (_campaign s) = true → endTimestamp (_campaign s) ≤ loadedAt →
     shown = false ∧
     (msg_sender env = fundraiser (_campaign s) →
      accepted this (env, EndCampaign) s = true)).
Proof.
  intros Hr Hnow Hv Hcall info page shown.
  destruct (status_cases s loadedAt Hr Hnow) as (_ & Hopen & _).
  destruct (settlement_invariant this s Hr) as (_ & Hact & _).
  assert (shown = true ↔
          account = fundraiser (_campaign s) ∧ isActive (_campaign s) = true ∧
          loadedAt < endTimestamp (_campaign s)) as Hshown.
  { unfold shown, Frontend.endButtonShown, Frontend.renderedStatus, page.
    simpl. rewrite !andb_true_iff, N.eqb_eq, negb_true_iff, N.eqb_neq.
    rewrite String.eqb_eq, Hopen. split.
    - by intros [[-> _] [? ?]].
    - intros (-> & Ha & Hlt). destruct (Hact Ha) as (Hf & _). by repeat split. }
  split; [done|]. split.
  - intros Hs Hsender. apply Hshown in Hs as (-> & Ha & _).
    by apply accepted_endCampaign_iff.
  - intros Ha Hts. split.
    + destruct shown; [|done]. destruct Hshown as [Hs _].
      destruct Hs as (_ & _ & ?); [done|lia].
    + intros Hsender. by apply accepted_endCampaign_iff.
Qed.

(** ** Decryption *)

(** X13.  What the client shows after decryption is what the ledger holds.
    In every reachable state, [handleDecryptStats] for any account, on the
    handles the getters return for it, succeeds and yields the plaintexts
    of that account's contribution and points entries (zero and zero for
    an account that never contributed); [handleDecryptTotals] for the
    fundraiser succeeds and yields the plaintexts of the two totals. *)
Theorem decrypted_values_are_true s who :
  reachable this s →
  Frontend.handleDecryptStats (acl s) this who
      (Some (getEncryptedContribution s who, getEncryptedPoints s who))
    = Some (clear (getEncryptedContribution s who),
            clear (getEncryptedPoints s who)) ∧
  Frontend.handleDecryptTotals (acl s) this (fundraiser (_campaign s))
      (Some (getEncryptedTotals s))
    = Some (clear (_encryptedTotalRaised s), clear (_encryptedTotalPoints s)).
Proof.
  intros Hr.
  destruct (ledger_started this s Hr) as (Hc & Hp & Hdom & Hcase).
  destruct (stored_values_granted this s Hr) as (Gc & Gp & Gr & Gt).
  unfold Frontend.handleDecryptStats, Frontend.handleDecryptTotals,
    Frontend.userDecrypt, getEncryptedContribution, getEncryptedPoints,
    getEncryptedTotals.
  split.
  - specialize (Hdom who).
    destruct (_encryptedContributions s !! who) as [h|] eqn:Hlc;
      destruct (_encryptedPoints s !! who) as [h'|] eqn:Hlp.
    + rewrite (lookup_total_correct _ _ _ Hlc), (lookup_total_correct _ _ _ Hlp).
      rewrite decide_False by eauto.
      destruct (Gc _ _ Hlc). destruct (Gp _ _ Hlp).
      by rewrite !decide_True.
    + exfalso. apply (is_Some_None (A := euint128)). apply Hdom. eauto.
    + exfalso. apply (is_Some_None (A := euint128)). apply Hdom. eauto.
    + rewrite !lookup_total_alt, Hlc, Hlp. simpl.
      rewrite decide_True by done. by rewrite clear_uninitialized.
  - destruct Hcase as [(_ & Hr0 & Hp0 & _)|(_ & Hr1 & Hp1)].
    + rewrite Hr0, Hp0, decide_True by done. by rewrite clear_uninitialized.
    + rewrite decide_False by done.
      destruct (Gr Hr1). destruct (Gt Hp1). by rewrite !decide_True.
Qed.

End ClientView.

(** ** Contributions built by the client *)

Section ClientContributions.
Import Symbolic.
Variable contract : address.




End ClientContributions.

(** * The theorems at concrete transactions

    The sample transactions of [Sample], run on the reference backend. *)

Import Symbolic Sample.

Lemma sample_senders (txs : list Tx) :
  forallb (λ tx : Tx, negb (msg_sender tx.1 =? zero_address)) txs = true →
  Forall (λ tx : Tx, msg_sender tx.1 ≠ zero_address) txs.
Proof.
  induction txs as [|tx txs IH]; simpl; [constructor|].
  intros [Htx Hall]%andb_true_iff. constructor; [|by apply IH].
  apply negb_true_iff in Htx. by apply N.eqb_neq.
Defined.

Lemma reachable_created : reachable this created.
Proof. apply reachable_run; [by apply sample_senders|constructor]. Defined.

Lemma reachable_funded : reachable this funded.
Proof. apply reachable_run; [by apply sample_senders|constructor]. Defined.

Lemma reachable_mismatched : reachable this mismatched.
Proof. apply reachable_run; [by apply sample_senders|constructor]. Defined.

Lemma reachable_saturated : reachable this saturated.
Proof. apply reachable_run; [by apply sample_senders|constructor]. Defined.

(** ** The scenarios of the repository's test suite *)

(** "creates a campaign with config" *)
Example test_creates_campaign :
  getCampaignInfo created
    = ("Rocket Launch", 5000000000000000000, 4600, deployer, true, 0).
Proof. reflexivity. Qed.

(** "records encrypted contributions and points" *)
Example test_records_contribution :
  totalRaised funded = one_ether ∧
  clear (getEncryptedContribution funded alice) = one_ether ∧
  clear (getEncryptedPoints funded alice) = one_ether / 1000000000000 ∧
  clear (getEncryptedPoints funded alice) = 1000000 ∧
  clear (getEncryptedTotals funded).1 = one_ether.
Proof. by repeat split. Qed.

(** "allows the fundraiser to end and withdraw" *)
Example test_end_and_withdraw :
  let s := run this [create; give 1 alice 500000000000000000
                               500000000000000000 1500] initial_state in
  balance s = 500000000000000000 ∧
  accepted this finish s = true ∧
  balance (transact this finish s) = 0 ∧
  isActive (_campaign (transact this finish s)) = false.
Proof. by vm_compute. Qed.

(** Value credited to the contract without a call is swept with the
    contributions: seven wei credited to the funded campaign. *)
Example credited_value_is_swept :
  let s := set_balance (balance funded + 7) funded in
  reachable this s ∧
  balance s = totalRaised s + 7 ∧
  balance (transact this finish s) = 0 ∧
  sent (transact this finish s) = [(deployer, one_ether + 7)] ∧
  totalRaised (transact this finish s) = one_ether.
Proof.
  intros s. split; [apply reachable_credit, reachable_funded|].
  by vm_compute.
Qed.

(** "rejects non-fundraiser ending" *)
Example test_rejects_non_fundraiser :
  endCampaign (env bob 0 1500) created = Revert Unauthorized created.
Proof. reflexivity. Qed.

(** C9 at the sample campaign: the configuration is valid and is recorded
    whole. *)
Lemma createCampaign_uninitialized_witness :
  fundraiser (_campaign initial_state) = zero_address ∧
  ∃ s', createCampaign (env deployer 0 1000) "Rocket Launch"
          5000000000000000000 4600 initial_state = Ok tt s' ∧
        _campaign s' =
          {| name := "Rocket Launch"; targetAmount := 5000000000000000000;
             endTimestamp := 4600; fundraiser := deployer; isActive := true |}.
Proof.
  split; [reflexivity|].
  destruct (createCampaign_uninitialized (B := backend) (env deployer 0 1000) "Rocket Launch"
              5000000000000000000 4600 initial_state eq_refl) as [_ [Hok _]].
  destruct Hok as (s' & Hs' & Hc & _).
  - intros [?|[?|?]]; [discriminate|discriminate|done].
  - by exists s'.
Defined.

(** C4 at the sample campaign: [bob] tries to create a second campaign
    after [alice] has contributed. *)
Lemma single_creation_witness :
  let s2 := run this [give 1 alice one_ether one_ether 1500] created in
  msg_sender (env deployer 0 1000) ≠ zero_address ∧
  createCampaign (env deployer 0 1000) "Rocket Launch" 5000000000000000000
    4600 initial_state = Ok tt created ∧
  createCampaign (env bob 0 1600) "Again" 1 5000 s2
    = Revert CampaignAlreadyCreated s2 ∧
  _campaign (transact this (env bob 0 1600, CreateCampaign "Again" 1 5000) s2)
    = _campaign s2.
Proof.
  intros s2.
  assert (msg_sender (env deployer 0 1000) ≠ zero_address) as Hs by done.
  assert (createCampaign (env deployer 0 1000) "Rocket Launch"
            5000000000000000000 4600 initial_state = Ok tt created) as Hc
    by reflexivity.
  do 2 (split; [exact Hs || exact Hc|]).
  destruct (single_creation (B := backend) this _ _ _ _ _ _
              [give 1 alice one_ether one_ether 1500]
              (env bob 0 1600) "Again" 1 5000 Hs Hc) as (H1 & _ & _ & H4).
  split; [exact H1|exact H4].
Defined.

(** C6 at the sample campaign: a contribution before the campaign exists,
    one after the deadline, and one without value. *)
Lemma contribute_rejections_witness :
  contribute this (env alice 1 1500) (input 1 1 alice) attestation initial_state
    = Revert CampaignInactive initial_state ∧
  contribute this (env alice 1 4600) (input 1 1 alice) attestation created
    = Revert CampaignAlreadyEnded created ∧
  contribute this (env alice 0 1500) (input 1 1 alice) attestation created
    = Revert ZeroContribution created ∧
  contribute this (env alice 1 1500) (input 1 1 bob) attestation created
    = Revert InputVerificationFailed created.
Proof.
  split; [|split; [|split]].
  - by apply (contribute_rejections (B := backend) this (env alice 1 1500) (input 1 1 alice)
                attestation initial_state).
  - by apply (contribute_rejections (B := backend) this (env alice 1 4600) (input 1 1 alice)
                attestation created).
  - by apply (contribute_rejections (B := backend) this (env alice 0 1500) (input 1 1 alice)
                attestation created).
  - by apply (contribute_rejections (B := backend) this (env alice 1 1500) (input 1 1 bob)
                attestation created).
Defined.

(** C10 at the sample campaign: [bob] contributes after the fundraiser has
    ended the campaign, before the deadline. *)
Lemma contribute_after_end_witness :
  msg_sender (env deployer 0 2000) ≠ zero_address ∧
  endCampaign (env deployer 0 2000) funded
    = Ok tt (run this [finish] funded) ∧
  contribute this (env bob 5 2100) (input 2 5 bob) attestation
      (run this [finish] funded)
    = Revert CampaignInactive (run this [finish] funded).
Proof.
  assert (msg_sender (env deployer 0 2000) ≠ zero_address) as Hs by done.
  assert (endCampaign (env deployer 0 2000) funded
          = Ok tt (run this [finish] funded)) as He by reflexivity.
  do 2 (split; [done|]).
  by destruct (contribute_after_end (B := backend) this _ _ _ [] (env bob 5 2100)
                 (input 2 5 bob) attestation Hs He) as (H1 & _).
Defined.


(** C2 at two contributions of 0.6 * 10^12 each: no points, although
    their sum is worth one point.  [contribute] runs on the state in which
    the attached value has been credited. *)
Lemma points_truncation_witness :
  let half := 600000000000 in
  let s1 := run this [give 1 alice half half 1500] created in
  let s2 := run this [give 2 alice half half 1600] s1 in
  contribute this (env alice half 1500) (input 1 half alice) attestation
    (set_balance (balance created + half) created) = Ok tt s1 ∧
  contribute this (env alice half 1600) (input 2 half alice) attestation
    (set_balance (balance s1 + half) s1) = Ok tt s2 ∧
  clear (getEncryptedPoints s2 alice)
    = half / POINTS_DIVISOR + half / POINTS_DIVISOR ∧
  half / POINTS_DIVISOR + half / POINTS_DIVISOR
    < (half + half) / POINTS_DIVISOR.
Proof.
  intros half s1 s2.
  assert (contribute this (env alice half 1500) (input 1 half alice)
            attestation (set_balance (balance created + half) created)
          = Ok tt s1) as H1 by (vm_compute; reflexivity).
  assert (contribute this (env alice half 1600) (input 2 half alice)
            attestation (set_balance (balance s1 + half) s1)
          = Ok tt s2) as H2 by (vm_compute; reflexivity).
  assert (getEncryptedPoints (set_balance (balance s1 + half) s1) alice
          = getEncryptedPoints s1 alice) as Hkeep by (vm_compute; reflexivity).
  do 2 (split; [exact H1 || exact H2|]).
  destruct (points_truncation (B := backend) this
              (env alice half 1500) (input 1 half alice) attestation
              (env alice half 1600) (input 2 half alice) attestation
              (set_balance (balance created + half) created) s1
              (set_balance (balance s1 + half) s1) s2
              H1 eq_refl Hkeep H2)
    as (a1 & a2 & Hin1 & Hin2 & _ & _ & _ & _ & Hsum & _ & Hlt).
  injection Hin1 as <-. injection Hin2 as <-.
  split; [apply Hsum|apply Hlt]; vm_compute; done.
Defined.

(** C3: the public and the encrypted total need not agree.  [alice]
    attaches 1 wei and encrypts 2; the contribution is accepted and the two
    totals differ. *)
Lemma totals_disagree :
  reachable this mismatched ∧
  contribution_of this (give 1 alice 1 2 1500) created
    = Some (alice, 1, Input 1 2) ∧
  totalRaised mismatched = 1 ∧
  clear (_encryptedTotalRaised mismatched) = 2 ∧
  totalRaised mismatched ≠ clear (_encryptedTotalRaised mismatched).
Proof. split; [apply reachable_mismatched|]. by repeat split. Qed.

(** Matching every contribution is not necessary for the totals to
    agree: [alice] attaches 1 wei and encrypts 2, [bob] attaches 2 wei and
    encrypts 1. *)
Example agreement_without_matching :
  let txs := [create; give 1 alice 1 2 1500; give 2 bob 2 1 1600] in
  let s := run this txs initial_state in
  ¬ Forall (λ c : address * N * euint128, clear c.2 = c.1.2)
      (ledger this txs initial_state) ∧
  totalRaised s = 3 ∧ clear (_encryptedTotalRaised s) = 3.
Proof.
  intros txs s. split; [|by vm_compute].
  assert (ledger this txs initial_state
          = [(alice, 1, Input 1 2); (bob, 2, Input 2 1)]) as ->
    by (vm_compute; reflexivity).
  intros Hall. apply Forall_inv in Hall. vm_compute in Hall. discriminate Hall.
Qed.

(** C3 at the sample campaign, where [alice] encrypted what she
    attached. *)
Lemma ledger_agreement_witness :
  Forall (λ c : address * N * euint128, clear c.2 = c.1.2)
    (ledger this [create; give 1 alice one_ether one_ether 1500] initial_state) ∧
  clear (_encryptedTotalRaised funded) = totalRaised funded.
Proof.
  assert (Forall (λ c : address * N * euint128, clear c.2 = c.1.2)
            (ledger this [create; give 1 alice one_ether one_ether 1500]
               initial_state)) as Hall.
  { by repeat constructor. }
  split; [done|].
  destruct (ledger_agreement (B := backend) this [create; give 1 alice one_ether one_ether 1500])
    as (_ & _ & _ & Hagree).
  by apply Hagree.
Defined.

(** C7: an entry can decrease.  [alice]'s entry holds [2^128 - 1]; she
    contributes an encrypted 1 and her entry wraps to 0. *)
Lemma entry_decreases :
  reachable this saturated ∧
  contribution_of this (give 2 alice 1 1 1600) saturated
    = Some (alice, 1, Input 2 1) ∧
  clear (getEncryptedContribution saturated alice) = euint128_modulus - 1 ∧
  clear (getEncryptedContribution
           (transact this (give 2 alice 1 1 1600) saturated) alice) = 0 ∧
  clear (getEncryptedContribution
           (transact this (give 2 alice 1 1 1600) saturated) alice)
    < clear (getEncryptedContribution saturated alice).
Proof. split; [apply reachable_saturated|]. by repeat split. Qed.

(** C7 at [alice]'s first contribution. *)
Lemma encrypted_ledger_invariant_witness :
  reachable this created ∧
  contribution_of this (give 1 alice one_ether one_ether 1500) created
    = Some (alice, one_ether, Input 1 one_ether) ∧
  clear (_encryptedTotalRaised funded)
    = sum_entries (_encryptedContributions funded) mod euint128_modulus ∧
  clear (getEncryptedContribution funded alice) = one_ether ∧
  clear (getEncryptedContribution created alice)
    ≤ clear (getEncryptedContribution funded alice).
Proof.
  split; [apply reachable_created|]. split; [reflexivity|].
  destruct (encrypted_ledger_invariant (B := backend) this funded reachable_funded)
    as ((Hsum & _) & _).
  destruct (encrypted_ledger_invariant (B := backend) this created reachable_created)
    as (_ & _ & _ & Hstep & _).
  destruct (Hstep (give 1 alice one_ether one_ether 1500) alice one_ether
              (Input 1 one_ether) eq_refl)
    as (_ & _ & _ & _ & Heq & _ & Hle & _).
  split; [exact Hsum|]. split; [exact Heq|]. by apply Hle.
Defined.

(** C8: a principal can hold a grant over another's entry.  After
    [alice]'s contribution, the first of the campaign, the fundraiser
    [deployer] holds a grant over the handle that is [alice]'s
    contribution entry: it is also the handle of the total. *)
Lemma fundraiser_reads_first_entry :
  reachable this funded ∧
  deployer ≠ alice ∧ deployer ≠ this ∧
  _encryptedContributions funded !! alice
    = Some (Add (Trivial 0) (Input 1 one_ether)) ∧
  (Add (Trivial 0) (Input 1 one_ether), deployer) ∈ acl funded.
Proof.
  split; [apply reachable_funded|]. do 3 (split; [done|]).
  apply list_elem_of_In. vm_compute. tauto.
Qed.

(** The backend with principal-bound inputs is collision-free. *)
Lemma bound_collision_free : CollisionFree (B := Bound.backend).
Proof.
  split; simpl.
  - by intros a b a' b' [= -> ->].
  - by intros a a' d [= ->].
  - done.
  - intros e pf user contract h Hv. unfold Bound.verify in Hv.
    destruct (_ && _); [|done]. by injection Hv as <-.
  - intros e pf user contract h a d Hv. unfold Bound.verify in Hv.
    destruct (_ && _); [|done]. by injection Hv as <-.
  - intros e pf user contract e' pf' user' contract' h Hv Hv'.
    unfold Bound.verify in Hv, Hv'.
    destruct (_ && _); [|done]. destruct (_ && _); [|done].
    injection Hv as <-. by injection Hv' as _ _ ->.
Defined.

Lemma reachable_bound_crowded :
  reachable (B := Bound.backend) this BoundSample.crowded.
Proof.
  apply reachable_run; [|constructor]. by repeat constructor.
Defined.

(** The separation of the contributors needs input handles that are
    bound to one principal.  On the reference backend [Symbolic], whose
    input handles do not record the principal, [alice] and [bob] can each
    have an input with the same handle admitted; their first contributions
    then store one and the same handle in both entries, and each holds a
    grant over the other's entry. *)
Example unbound_inputs_share_entries :
  let s := run this [create; give 1 alice 5 5 1500; give 1 bob 5 5 1600]
             initial_state in
  reachable this s ∧
  _encryptedContributions s !! alice = Some (Add (Trivial 0) (Input 1 5)) ∧
  _encryptedContributions s !! bob = Some (Add (Trivial 0) (Input 1 5)) ∧
  (Add (Trivial 0) (Input 1 5), bob) ∈ acl s.
Proof.
  intros s. split.
  - apply reachable_run; [by apply sample_senders|constructor].
  - do 2 (split; [by vm_compute|]). apply list_elem_of_In. vm_compute. tauto.
Qed.

(** C8 at the campaign with two contributors, on the backend with
    principal-bound inputs.  The fundraiser [deployer] holds a grant over
    [alice]'s contribution entry; it is neither [alice] nor the contract,
    so the handle is a former grand total (it was the total after the
    first contribution).  And [alice]'s first contribution issued exactly
    the eight grants. *)
Lemma capability_grants_witness :
  let entry := Bound.Add (Bound.Trivial 0) (Bound.Input 1 one_ether alice this) in
  reachable (B := Bound.backend) this BoundSample.crowded ∧
  CollisionFree (B := Bound.backend) ∧
  _encryptedContributions BoundSample.crowded !! alice = Some entry ∧
  (entry, deployer) ∈ acl BoundSample.crowded ∧
  (∃ s0, reachable this s0 ∧ evolves this s0 BoundSample.crowded ∧
         (entry = _encryptedTotalRaised s0 ∨ entry = _encryptedTotalPoints s0)) ∧
  acl funded =
    [(_encryptedTotalPoints funded, deployer);
     (_encryptedTotalRaised funded, deployer);
     (_encryptedTotalPoints funded, this);
     (_encryptedTotalRaised funded, this);
     (getEncryptedPoints funded alice, alice);
     (getEncryptedPoints funded alice, this);
     (getEncryptedContribution funded alice, alice);
     (getEncryptedContribution funded alice, this)].
Proof.
  intros entry.
  assert (_encryptedContributions BoundSample.crowded !! alice = Some entry)
    as Hl by (vm_compute; reflexivity).
  assert ((entry, deployer) ∈ acl BoundSample.crowded) as Hin.
  { apply list_elem_of_In. vm_compute. tauto. }
  split; [apply reachable_bound_crowded|].
  split; [apply bound_collision_free|].
  do 2 (split; [exact Hl || exact Hin|]).
  destruct (capability_grants (B := Bound.backend) this BoundSample.crowded
              reachable_bound_crowded) as (_ & _ & _ & Hiso & _).
  destruct (Hiso bound_collision_free BoundSample.crowded alice entry deployer
              reachable_bound_crowded (evolves_refl _ _) (or_introl Hl) Hin)
    as [Heq|[Heq|[_ Htotal]]]; [done|done|].
  split; [exact Htotal|].
  destruct (capability_grants (B := backend) this created reachable_created)
    as (Hgrants & _).
  exact (Hgrants (give 1 alice one_ether one_ether 1500) alice one_ether
           (Input 1 one_ether) eq_refl).
Defined.

(** * The further properties at concrete transactions *)

Import Sample2.

Lemma reachable_crowded : reachable this crowded.
Proof. apply reachable_run; [by apply sample_senders|constructor]. Defined.


(** [Number] rounds to the nearest double, ties to even. *)
Example Number_rounds :
  Frontend.Number 9007199254740993 = 9007199254740992 ∧
  Frontend.Number 9007199254740995 = 9007199254740996 ∧
  Frontend.Number 1700000000 = 1700000000.
Proof. by vm_compute. Qed.

(** X1 at the sample campaign: after the fundraiser has ended it, a
    contribution, a second end and a new creation change nothing. *)
Lemma ended_is_final_witness :
  let later := [give 2 bob 5 5 2100; finish; create] in
  msg_sender (env deployer 0 2000) ≠ zero_address ∧
  endCampaign (env deployer 0 2000) funded = Ok tt (run this [finish] funded) ∧
  run this later (run this [finish] funded) = run this [finish] funded.
Proof.
  intros later.
  assert (msg_sender (env deployer 0 2000) ≠ zero_address) as Hs by done.
  assert (endCampaign (env deployer 0 2000) funded
          = Ok tt (run this [finish] funded)) as He by reflexivity.
  do 2 (split; [exact Hs || exact He|]).
  by destruct (ended_is_final (B := backend) this _ _ _ later Hs He) as (H1 & _).
Defined.

(** X2 at the sample campaign. *)
Lemma configuration_fixed_witness :
  let later := [give 1 alice one_ether one_ether 1500; finish] in
  fundraiser (_campaign created) ≠ zero_address ∧
  name (_campaign (run this later created)) = name (_campaign created) ∧
  endTimestamp (_campaign (run this later created))
    = endTimestamp (_campaign created).
Proof.
  intros later.
  assert (fundraiser (_campaign created) ≠ zero_address) as Hf by done.
  split; [exact Hf|].
  destruct (configuration_fixed (B := backend) this later created Hf)
    as (Hn & _ & He & _).
  split; [exact Hn|exact He].
Defined.

(** X3 at the sample campaign: the fundraiser ends it at timestamp 5000,
    after the deadline 4600. *)
Lemma only_fundraiser_closes_witness :
  accepted this (env deployer 0 5000, EndCampaign) funded = true.
Proof.
  destruct (only_fundraiser_closes (B := backend) this (env deployer 0 5000) funded)
    as (_ & Hiff).
  apply Hiff. by repeat split.
Defined.

(** X4 at the sample campaign. *)
Lemma campaign_wellformed_witness :
  reachable this funded ∧ fundraiser (_campaign funded) ≠ zero_address ∧
  name (_campaign funded) ≠ "" ∧ targetAmount (_campaign funded) ≠ 0.
Proof.
  assert (fundraiser (_campaign funded) ≠ zero_address) as Hf by done.
  split; [apply reachable_funded|]. split; [exact Hf|].
  destruct (campaign_wellformed (B := backend) this funded reachable_funded)
    as (_ & Hok & _).
  destruct (Hok Hf) as (Hn & Ht & _). by split.
Defined.

(** X5 at the sample campaign: [bob] contributes 5 wei to a campaign
    that already holds one ether. *)
Lemma contribute_accepted_iff_witness :
  accepted this (give 2 bob 5 5 1600) funded = true.
Proof.
  destruct (contribute_accepted_iff (B := backend) this (env bob 5 1600)
              (input 2 5 bob) attestation funded) as (Hiff & _).
  apply Hiff.
  split; [reflexivity|]. split; [reflexivity|]. split; [done|].
  split; [by eexists|]. by vm_compute.
Defined.

(** X6 at the sample campaign with two contributors. *)
Lemma event_log_accounting_witness :
  reachable this crowded ∧
  logged_contributions (events crowded) = totalRaised crowded.
Proof.
  split; [apply reachable_crowded|].
  by destruct (event_log_accounting (B := backend) this crowded reachable_crowded)
    as (Hlog & _).
Defined.


(** X8 at the sample campaign: [alice] and the contract hold a grant over
    her contribution entry. *)
Lemma current_values_granted_witness :
  reachable this funded ∧
  _encryptedContributions funded !! alice
    = Some (Add (Trivial 0) (Input 1 one_ether)) ∧
  (Add (Trivial 0) (Input 1 one_ether), alice) ∈ acl funded ∧
  (Add (Trivial 0) (Input 1 one_ether), this) ∈ acl funded.
Proof.
  assert (_encryptedContributions funded !! alice
          = Some (Add (Trivial 0) (Input 1 one_ether))) as Hl
    by (vm_compute; reflexivity).
  split; [apply reachable_funded|]. split; [exact Hl|].
  destruct (current_values_granted (B := backend) this funded reachable_funded)
    as (Hc & _).
  exact (Hc alice _ Hl).
Defined.

(** X9 at the sample campaign with two contributors: the fundraiser, who
    did not contribute, reads zero. *)
Lemma entries_are_own_sums_witness :
  Forall (λ c : address * N * euint128, c.1.1 ≠ deployer)
    (ledger this crowd initial_state) ∧
  clear (getEncryptedContribution (run this crowd initial_state) deployer) = 0 ∧
  clear (getEncryptedContribution (run this crowd initial_state) bob)
    = amounts_of bob (ledger this crowd initial_state) mod euint128_modulus.
Proof.
  assert (Forall (λ c : address * N * euint128, c.1.1 ≠ deployer)
            (ledger this crowd initial_state)) as Hnone.
  { by repeat constructor. }
  split; [exact Hnone|].
  destruct (entries_are_own_sums (B := backend) this crowd deployer)
    as (_ & _ & _ & Hzero).
  destruct (entries_are_own_sums (B := backend) this crowd bob) as (Hbob & _).
  split; [by destruct (Hzero Hnone)|exact Hbob].
Defined.

(** X10 at the sample campaign with two contributors: the fundraiser,
    who did not contribute, reads the zero handle. *)
Lemma zero_handles_witness :
  Forall (λ c : address * N * euint128, c.1.1 ≠ deployer)
    (ledger this crowd initial_state) ∧
  getEncryptedContribution (run this crowd initial_state) deployer
    = uninitialized ∧
  (getEncryptedTotals (run this crowd initial_state)).1 ≠ uninitialized.
Proof.
  assert (Forall (λ c : address * N * euint128, c.1.1 ≠ deployer)
            (ledger this crowd initial_state)) as Hnone.
  { by repeat constructor. }
  split; [exact Hnone|].
  destruct (zero_handles (B := backend) this crowd deployer)
    as (Hown & _ & Htotal & _).
  split; [by apply Hown|].
  intros Hz. apply Htotal in Hz. discriminate Hz.
Defined.

(** X11 at the sample campaign, loaded at clock 1500 and looked at at
    clock 5000, after the deadline 4600: the page still says "Open", and
    the contract refuses the contribution. *)
Lemma status_matches_contract_witness :
  reachable this created ∧ 1500 < 2 ^ 53 ∧
  Frontend.label
    (Frontend.renderedStatus
       (Frontend.afterLoad (Some (Frontend.loadCampaign created)) 1500) 5000)
    = "Open" ∧
  contribute this (env alice 1 5000) (input 1 1 alice) attestation created
    = Revert CampaignAlreadyEnded created.
Proof.
  assert (1500 < 2 ^ 53) as Hnow by done.
  split; [apply reachable_created|]. split; [exact Hnow|].
  destruct (status_matches_contract (B := backend) this created 1500 5000
              reachable_created Hnow) as (_ & Hopen & _ & Hstale).
  assert (Frontend.label
            (Frontend.renderedStatus
               (Frontend.afterLoad (Some (Frontend.loadCampaign created)) 1500)
               5000) = "Open") as Hlabel.
  { apply Hopen. by split. }
  split; [exact Hlabel|].
  destruct (Hstale Hlabel (env alice 1 5000) (input 1 1 alice) attestation)
    as (Hlate & _).
  by destruct Hlate as (Hrev & _).
Defined.

(** X12 at the sample campaign: a page loaded at clock 5000, after the
    deadline 4600, hides the button from the fundraiser, whose
    [endCampaign] the contract accepts. *)
Lemma end_button_witness :
  reachable this funded ∧ 5000 < 2 ^ 53 ∧
  isActive (_campaign funded) = true ∧ endTimestamp (_campaign funded) ≤ 5000 ∧
  Frontend.endButtonShown (Some (Frontend.loadCampaign funded)) (Some deployer)
    (Frontend.renderedStatus
       (Frontend.afterLoad (Some (Frontend.loadCampaign funded)) 5000) 6000)
    = false ∧
  accepted this (env deployer 0 6000, EndCampaign) funded = true.
Proof.
  assert (5000 < 2 ^ 53) as Hnow by done.
  assert (isActive (_campaign funded) = true) as Ha by reflexivity.
  assert (endTimestamp (_campaign funded) ≤ 5000) as Hts by done.
  split; [apply reachable_funded|].
  do 3 (split; [exact Hnow || exact Ha || exact Hts|]).
  destruct (end_button (B := backend) this funded deployer 5000 6000
              (env deployer 0 6000) reachable_funded Hnow eq_refl eq_refl)
    as (_ & _ & Hlate).
  destruct (Hlate Ha Hts) as (Hhidden & Hacc). split; [exact Hhidden|].
  by apply Hacc.
Defined.

(** X13 at the sample campaign: what [alice] is shown. *)
Lemma decrypted_values_are_true_witness :
  reachable this funded ∧
  Frontend.handleDecryptStats (acl funded) this alice
      (Some (getEncryptedContribution funded alice, getEncryptedPoints funded alice))
    = Some (clear (getEncryptedContribution funded alice),
            clear (getEncryptedPoints funded alice)).
Proof.
  split; [apply reachable_funded|].
  by destruct (decrypted_values_are_true (B := backend) this funded alice
                 reachable_funded) as (Hstats & _).
Defined.

